(** * BLI_stack: the chunked stack of [source/blender/blenlib/intern/stack.c]

    The stack stores fixed-size elements in a singly linked list of chunks.
    Chunks live on the free store and are reached through raw pointers, so
    the embedding keeps an explicit store of chunks and models pointers as
    indices into it.  [size_t] arithmetic wraps modulo [2^64].  Operations
    that dereference a null or dangling pointer, or copy outside a buffer,
    have undefined behaviour in C++, and [new StackChunk] can exit by an
    exception: in both cases the call does not return, which is modelled by
    [None].  The state an exception leaves behind is given separately
    ([push_r_throws]).  The destructor is modelled by the list of the chunks
    it deletes. *)

From Stdlib Require Import ZArith Lia.
From Stdlib.Strings Require Import Byte.
From stdpp Require Import base numbers option list.

Local Open Scope Z_scope.

(** ** [size_t] *)

Definition SIZE_BITS : Z := 64.
Definition SIZE_MOD : Z := Eval cbv in 2 ^ SIZE_BITS.
Definition SIZE_MAX : Z := Eval cbv in SIZE_MOD - 1.

(** Result of an unsigned operation, reduced to the range of [size_t]. *)
Definition size_wrap (z : Z) : Z := z `mod` SIZE_MOD.

(** A value that a [size_t] variable can hold. *)
Definition is_size_t (z : Z) : Prop := 0 ≤ z ≤ SIZE_MAX.

(** ** Chunks and the store *)

(** A pointer to a chunk: [None] is [nullptr], [Some a] the chunk at
    address [a] of the store. *)
Definition chunk_ptr : Type := option nat.

(** class StackChunk { StackChunk *next; std::vector<char> data; } *)
Record StackChunk : Type := mkChunk {
  next : chunk_ptr;
  data : list byte
}.

(** std::vector<char>::max_size() where [size_t] has 64 bits: the
    constructor of a longer vector throws std::length_error. *)
Definition VECTOR_MAX_SIZE : Z := Eval cbv in 2 ^ 63 - 1.

(** The chunk the constructor builds: no successor and a value-initialised
    vector, [chunk_size] zero bytes. *)
Definition zeroed_chunk (chunk_size : Z) : StackChunk :=
  {| next := None; data := replicate (Z.to_nat chunk_size) x00 |}.

(** StackChunk(size_t chunk_size) : next(nullptr), data(chunk_size) {}
    [None] when the vector constructor throws std::length_error.  The free
    store can also refuse a shorter vector (std::bad_alloc); that exit is
    not decided by the arguments, see [push_r_throws]. *)
Definition StackChunk_new (chunk_size : Z) : option StackChunk :=
  if decide (chunk_size ≤ VECTOR_MAX_SIZE)
  then Some (zeroed_chunk chunk_size)
  else None.

(** The chunks allocated so far with [new StackChunk]; a chunk's address is
    its position.  Chunks are only deleted by the destructor, so addresses
    are never reused while the stack lives. *)
Abbreviation store := (list StackChunk).

(** A pointer into a chunk's [data]: the chunk's address and a byte offset. *)
Definition slot_ptr : Type := (nat * Z)%type.

(** ** The stack object *)

(** The members of class BLI_StackImpl, in the order of the source.  [heap]
    is not a member: it is the part of the free store that holds the chunks
    this stack has allocated, carried along so that the operations read and
    write the chunks they point to. *)
Record BLI_StackImpl : Type := mkStack {
  heap : store;
  chunk_curr : chunk_ptr;
  chunk_free : chunk_ptr;
  chunk_index : Z;
  chunk_elem_max : Z;
  elem_size : Z;
  elem_num : Z
}.

Definition set_heap (h : store) (s : BLI_StackImpl) : BLI_StackImpl :=
  mkStack h (chunk_curr s) (chunk_free s) (chunk_index s)
          (chunk_elem_max s) (elem_size s) (elem_num s).
Definition set_chunk_curr (p : chunk_ptr) (s : BLI_StackImpl) : BLI_StackImpl :=
  mkStack (heap s) p (chunk_free s) (chunk_index s)
          (chunk_elem_max s) (elem_size s) (elem_num s).
Definition set_chunk_free (p : chunk_ptr) (s : BLI_StackImpl) : BLI_StackImpl :=
  mkStack (heap s) (chunk_curr s) p (chunk_index s)
          (chunk_elem_max s) (elem_size s) (elem_num s).
Definition set_chunk_index (i : Z) (s : BLI_StackImpl) : BLI_StackImpl :=
  mkStack (heap s) (chunk_curr s) (chunk_free s) i
          (chunk_elem_max s) (elem_size s) (elem_num s).
Definition set_elem_num (n : Z) (s : BLI_StackImpl) : BLI_StackImpl :=
  mkStack (heap s) (chunk_curr s) (chunk_free s) (chunk_index s)
          (chunk_elem_max s) (elem_size s) n.

(** [p->next = n]; undefined when [p] is not an allocated chunk. *)
Definition store_next (p : nat) (n : chunk_ptr) (h : store) : option store :=
  c ← h !! p;
  Some (<[p := {| next := n; data := data c |}]> h).

(** [std::memcpy(dst, src, n)] into the slot [dst] of a chunk, from a caller
    buffer [src]: both ranges have to lie inside their buffers. *)
Definition memcpy_to_slot (dst : slot_ptr) (src : list byte) (n : Z)
    (h : store) : option store :=
  c ← h !! dst.1;
  if decide (0 ≤ dst.2 ∧ 0 ≤ n ∧ dst.2 + n ≤ Z.of_nat (length (data c))
             ∧ n ≤ Z.of_nat (length src))
  then
    let off := Z.to_nat dst.2 in
    let len := Z.to_nat n in
    Some (<[dst.1 := {| next := next c;
                        data := take off (data c) ++ take len src
                                ++ drop (off + len)%nat (data c) |}]> h)
  else None.

(** [std::memcpy(dst, src, n)] from the slot [src] of a chunk into a caller
    buffer: the result is what the first [n] bytes of [dst] hold
    afterwards. *)
Definition memcpy_from_slot (src : slot_ptr) (n : Z) (h : store)
    : option (list byte) :=
  c ← h !! src.1;
  if decide (0 ≤ src.2 ∧ 0 ≤ n ∧ src.2 + n ≤ Z.of_nat (length (data c)))
  then Some (take (Z.to_nat n) (drop (Z.to_nat src.2) (data c)))
  else None.

(** ** Operations of [BLI_StackImpl] *)

(** BLI_StackImpl(size_t elem_size, size_t chunk_size) *)
Definition BLI_StackImpl_new (elem_size chunk_size : Z) : BLI_StackImpl :=
  {| heap := [];
     chunk_curr := None;
     chunk_free := None;
     chunk_index := size_wrap (chunk_size - 1);
     chunk_elem_max := chunk_size;
     elem_size := elem_size;
     elem_num := 0 |}.

(** void *get_last_elem():
    chunk_curr->data.data() + (elem_size * chunk_index) *)
Definition get_last_elem (s : BLI_StackImpl) : option slot_ptr :=
  p ← chunk_curr s;
  _ ← heap s !! p;
  Some (p, size_wrap (elem_size s * chunk_index s)).

(** void allocate_new_chunk() *)
Definition allocate_new_chunk (s : BLI_StackImpl) : option BLI_StackImpl :=
  s1 ← match chunk_free s with
       | Some f =>
           (* chunk_curr = chunk_free; chunk_free = chunk_free->next; *)
           c ← heap s !! f;
           Some (set_chunk_free (next c) (set_chunk_curr (Some f) s))
       | None =>
           (* chunk_curr = new StackChunk(elem_size * chunk_elem_max); *)
           c ← StackChunk_new (size_wrap (elem_size s * chunk_elem_max s));
           Some (set_chunk_curr (Some (length (heap s)))
                   (set_heap (heap s ++ [c]) s))
       end;
  (* chunk_curr->next = nullptr; *)
  p ← chunk_curr s1;
  h ← store_next p None (heap s1);
  Some (set_heap h s1).

(** void *push_r() *)
Definition push_r (s : BLI_StackImpl) : option (slot_ptr * BLI_StackImpl) :=
  let s1 := set_chunk_index (size_wrap (chunk_index s + 1)) s in
  s2 ← (if decide (chunk_index s1 = chunk_elem_max s1)
        then s' ← allocate_new_chunk s1; Some (set_chunk_index 0 s')
        else Some s1);
  let s3 := set_elem_num (size_wrap (elem_num s2 + 1)) s2 in
  dst ← get_last_elem s3;
  Some (dst, s3).

(** The other way out of [push_r] (and of [push], which calls it): the
    cursor has been incremented, the free list is empty and
    [new StackChunk] throws, std::length_error for a size above
    [VECTOR_MAX_SIZE] or std::bad_alloc whenever the free store refuses the
    request.  The exception leaves through [push_r]; this is the state it
    leaves behind, whenever the call can end that way. *)
Definition push_r_throws (s : BLI_StackImpl) : option BLI_StackImpl :=
  let s1 := set_chunk_index (size_wrap (chunk_index s + 1)) s in
  if decide (chunk_index s1 = chunk_elem_max s1)
  then match chunk_free s1 with
       | None => Some s1
       | Some _ => None
       end
  else None.

(** void push(const void *src) *)
Definition push (src : list byte) (s : BLI_StackImpl) : option BLI_StackImpl :=
  '(dst, s1) ← push_r s;
  h ← memcpy_to_slot dst src (elem_size s1) (heap s1);
  Some (set_heap h s1).

(** void *peek() *)
Definition peek (s : BLI_StackImpl) : option slot_ptr := get_last_elem s.

(** void discard() *)
Definition discard (s : BLI_StackImpl) : option BLI_StackImpl :=
  let s1 := set_chunk_index (size_wrap (chunk_index s - 1)) s in
  s2 ← (if decide (chunk_index s1 = SIZE_MAX)
        then
          old_chunk ← chunk_curr s1;
          c ← heap s1 !! old_chunk;
          (* chunk_curr = chunk_curr->next; *)
          let sa := set_chunk_curr (next c) s1 in
          (* old_chunk->next = chunk_free; *)
          h ← store_next old_chunk (chunk_free sa) (heap sa);
          (* chunk_free = old_chunk; *)
          let sb := set_chunk_free (Some old_chunk) (set_heap h sa) in
          Some (set_chunk_index (size_wrap (chunk_elem_max sb - 1)) sb)
        else Some s1);
  Some (set_elem_num (size_wrap (elem_num s2 - 1)) s2).

(** void pop(void *dst): the bytes copied to [dst] and the new state. *)
Definition pop (s : BLI_StackImpl) : option (list byte * BLI_StackImpl) :=
  src ← get_last_elem s;
  dst ← memcpy_from_slot src (elem_size s) (heap s);
  s' ← discard s;
  Some (dst, s').

(** The loop of [clear]:
      while (last_free->next) last_free = last_free->next;
    [fuel] bounds the number of chunks visited. *)
Fixpoint last_chunk (fuel : nat) (h : store) (last_free : nat) : option nat :=
  match fuel with
  | O => None
  | S fuel' =>
      c ← h !! last_free;
      match next c with
      | Some n => last_chunk fuel' h n
      | None => Some last_free
      end
  end.

(** void clear().  The walk to the last free chunk visits every chunk at
    most once unless the free list is cyclic, in which case the loop does not
    terminate: the number of allocated chunks is enough fuel. *)
Definition clear (s : BLI_StackImpl) : option BLI_StackImpl :=
  let s1 := set_chunk_index (size_wrap (chunk_elem_max s - 1)) s in
  s2 ← match chunk_free s1 with
       | Some f =>
           match chunk_curr s1 with
           | Some cu =>
               last_free ← last_chunk (length (heap s1)) (heap s1) f;
               h ← store_next last_free (Some cu) (heap s1);
               Some (set_heap h s1)
           | None => Some s1
           end
       | None => Some (set_chunk_free (chunk_curr s1) s1)
       end;
  Some (set_elem_num 0 (set_chunk_curr None s2)).

(** size_t count() const *)
Definition count (s : BLI_StackImpl) : Z := elem_num s.

(** bool is_empty() const *)
Definition is_empty (s : BLI_StackImpl) : bool := bool_decide (elem_num s = 0).

(** ** The C interface *)

(** BLI_stack_new_ex(elem_size, description, chunk_size): the returned
    pointer, [None] standing for "no container produced".  [new] does not
    return null and the constructor has no failure path. *)
Definition BLI_stack_new_ex (elem_size chunk_size : Z) : option BLI_StackImpl :=
  Some (BLI_StackImpl_new elem_size chunk_size).

(** BLI_stack_new(elem_size, description) *)
Definition BLI_stack_new (elem_size : Z) : option BLI_StackImpl :=
  BLI_stack_new_ex elem_size (Z.shiftl 1 16).

(** ** Reading the data structure *)

(** [chunk_list h p l]: following [next] from [p] in the store [h] visits
    exactly the chunks at the addresses [l], in this order, and then reaches
    [nullptr]. *)
Fixpoint chunk_list (h : store) (p : chunk_ptr) (l : list nat) : Prop :=
  match l with
  | [] => p = None
  | a :: l' =>
      p = Some a ∧
      match h !! a with
      | Some c => chunk_list h (next c) l'
      | None => False
      end
  end.

(** The active list is [lc], the free list is [lf], and no chunk is on both
    (or twice on one). *)
Definition lists_ok (s : BLI_StackImpl) (lc lf : list nat) : Prop :=
  chunk_list (heap s) (chunk_curr s) lc ∧
  chunk_list (heap s) (chunk_free s) lf ∧
  NoDup (lc ++ lf).

(** A chunk pointer that may be dereferenced when it is not null. *)
Definition valid_ptr (h : store) (p : chunk_ptr) : Prop :=
  match p with
  | Some a => is_Some (h !! a)
  | None => True
  end.

(** The slot of the top element lies inside the current chunk: what a
    caller of [pop], [peek] and [discard] has to guarantee. *)
Definition top_slot_ok (s : BLI_StackImpl) : Prop :=
  match chunk_curr s with
  | Some p =>
      match heap s !! p with
      | Some c =>
          0 ≤ elem_size s ∧
          size_wrap (elem_size s * chunk_index s) + elem_size s
            ≤ Z.of_nat (length (data c))
      | None => False
      end
  | None => False
  end.

(** The element [peek] points to. *)
Definition peek_value (s : BLI_StackImpl) : option (list byte) :=
  src ← peek s;
  memcpy_from_slot src (elem_size s) (heap s).

(** [pop] written with the public operations: copy [elem_size] bytes from
    [peek()] to the destination, then [discard()]. *)
Definition pop_via_peek_discard (s : BLI_StackImpl)
    : option (list byte * BLI_StackImpl) :=
  dst ← peek_value s;
  s' ← discard s;
  Some (dst, s').

(** ** Sequences of operations *)

Inductive stack_op : Type :=
  | OpPush (src : list byte)
  | OpPop
  | OpDiscard
  | OpClear.

(** One call; a [pop] reports the bytes it copied out. *)
Definition run_op (op : stack_op) (s : BLI_StackImpl)
    : option (list (list byte) * BLI_StackImpl) :=
  match op with
  | OpPush src => s' ← push src s; Some ([], s')
  | OpPop => '(dst, s') ← pop s; Some ([dst], s')
  | OpDiscard => s' ← discard s; Some ([], s')
  | OpClear => s' ← clear s; Some ([], s')
  end.

(** A sequence of calls, with the outputs of its pops in order. *)
Fixpoint run_ops (ops : list stack_op) (s : BLI_StackImpl)
    : option (list (list byte) * BLI_StackImpl) :=
  match ops with
  | [] => Some ([], s)
  | op :: ops' =>
      '(out, s1) ← run_op op s;
      '(outs, s2) ← run_ops ops' s1;
      Some (out ++ outs, s2)
  end.

(** The standard LIFO stack of the specification, top element first:
    [None] when an element is removed from the empty stack. *)
Definition lifo_op (op : stack_op) (st : list (list byte))
    : option (list (list byte) * list (list byte)) :=
  match op, st with
  | OpPush src, _ => Some ([], src :: st)
  | OpPop, top :: st' => Some ([top], st')
  | OpDiscard, _ :: st' => Some ([], st')
  | OpClear, _ => Some ([], [])
  | _, [] => None
  end.

Fixpoint lifo_ops (ops : list stack_op) (st : list (list byte))
    : option (list (list byte) * list (list byte)) :=
  match ops with
  | [] => Some ([], st)
  | op :: ops' =>
      '(out, st1) ← lifo_op op st;
      '(outs, st2) ← lifo_ops ops' st1;
      Some (out ++ outs, st2)
  end.

(** The bytes of a 32-bit integer in memory (little endian). *)
Definition byte_of_Z (z : Z) : byte :=
  default x00 (Byte.of_N (Z.to_N (z `mod` 256))).

Definition int32_bytes (z : Z) : list byte :=
  (λ i, byte_of_Z (Z.shiftr z (8 * i))) <$> [0; 1; 2; 3].

(** The chunk [chunk_curr] points to, if any. *)
Definition head_chunk (s : BLI_StackImpl) : option StackChunk :=
  p ← chunk_curr s; heap s !! p.

(** Both lists are null-terminated and share no chunk. *)
Definition lists_wf (s : BLI_StackImpl) : Prop := ∃ lc lf, lists_ok s lc lf.

(** States the public operations can produce from a new stack, by calls
    that return or by a push that exits by an exception. *)
Inductive reachable : BLI_StackImpl → Prop :=
  | reach_new elem_size chunk_size :
      reachable (BLI_StackImpl_new elem_size chunk_size)
  | reach_push_r s dst s' :
      reachable s → push_r s = Some (dst, s') → reachable s'
  | reach_push_throws s s' :
      reachable s → push_r_throws s = Some s' → reachable s'
  | reach_push src s s' :
      reachable s → push src s = Some s' → reachable s'
  | reach_pop s dst s' :
      reachable s → pop s = Some (dst, s') → reachable s'
  | reach_discard s s' :
      reachable s → discard s = Some s' → reachable s'
  | reach_clear s s' :
      reachable s → clear s = Some s' → reachable s'.

(** The state, and the outputs, a sequence of calls ends with. *)
Definition state_after (ops : list stack_op) (s : BLI_StackImpl)
    : option BLI_StackImpl :=
  snd <$> run_ops ops s.

Definition outputs_of (ops : list stack_op) (s : BLI_StackImpl)
    : option (list (list byte)) :=
  fst <$> run_ops ops s.

(** Pushing 32-bit integers, one call each. *)
Definition push_ints (l : list Z) : list stack_op :=
  (λ z, OpPush (int32_bytes z)) <$> l.

(** ** Example states and call sequences *)

(** Five one-byte pushes into chunks of four elements, then two pops. *)
Definition five_pushes_two_pops : list stack_op :=
  [OpPush [x01]; OpPush [x02]; OpPush [x03]; OpPush [x04]; OpPush [x05];
   OpPop; OpPop].

(** Three one-byte pushes into chunks of two elements, then two pops. *)
Definition three_pushes_two_pops : list stack_op :=
  [OpPush [x0a]; OpPush [x0b]; OpPush [x0c]; OpPop; OpPop].

(** Two one-byte pushes into chunks of one element, then a pop. *)
Definition two_pushes_one_pop : list stack_op :=
  [OpPush [x01]; OpPush [x02]; OpPop].

(** The end-to-end scenario: 32-bit integers, four per chunk. *)
Definition scenario_start : BLI_StackImpl := BLI_StackImpl_new 4 4.
Definition scenario_pushes : list stack_op := push_ints [1; 2; 3; 4; 5; 6].
Definition scenario_pops : list stack_op := scenario_pushes ++ [OpPop; OpPop].
Definition scenario_clear : list stack_op := scenario_pops ++ [OpClear].
Definition scenario_refill : list stack_op := scenario_clear ++ push_ints [7; 8].

(** A store of four chunks: the active list is 0, 1 and the free list 2, 3. *)
Definition two_lists_state : BLI_StackImpl :=
  {| heap := [ {| next := Some 1%nat; data := [x05; x00] |};
               {| next := None; data := [x03; x04] |};
               {| next := Some 3%nat; data := [x00; x00] |};
               {| next := None; data := [x00; x00] |} ];
     chunk_curr := Some 0%nat;
     chunk_free := Some 2%nat;
     chunk_index := 0;
     chunk_elem_max := 2;
     elem_size := 1;
     elem_num := 3 |}.

(** A full chunk of two one-byte elements and an empty free list. *)
Definition full_chunk_state : BLI_StackImpl :=
  {| heap := [ {| next := None; data := [x01; x02] |} ];
     chunk_curr := Some 0%nat;
     chunk_free := None;
     chunk_index := 1;
     chunk_elem_max := 2;
     elem_size := 1;
     elem_num := 2 |}.

(** ** Invariants *)

(** The space a chunk is allocated with. *)
Definition chunk_bytes (s : BLI_StackImpl) : nat :=
  Z.to_nat (size_wrap (elem_size s * chunk_elem_max s)).

(** Every chunk of the store still has the size it was allocated with. *)
Definition chunks_sized (s : BLI_StackImpl) : Prop :=
  ∀ a c, heap s !! a = Some c → length (data c) = chunk_bytes s.


(** ** The destructor *)

(** void clear_chunks(StackChunk *chunk):
      while (chunk) { next = chunk->next; delete chunk; chunk = next; }
    The result lists the deleted chunks in the order of their deletion,
    after those of [freed], which were deleted before.  Reading or deleting a
    chunk that was already deleted is undefined.  [fuel] bounds the number
    of chunks visited. *)
Fixpoint clear_chunks (fuel : nat) (h : store) (freed : list nat)
    (chunk : chunk_ptr) : option (list nat) :=
  match chunk with
  | None => Some freed
  | Some a =>
      match fuel with
      | O => None
      | S fuel' =>
          if decide (a ∈ freed) then None
          else
            c ← h !! a;
            clear_chunks fuel' h (freed ++ [a]) (next c)
      end
  end.

(** ~BLI_StackImpl(): clear_chunks(chunk_curr); clear_chunks(chunk_free);
    the chunks it deletes.  No chunk is deleted twice, so each call visits
    at most as many chunks as the store holds. *)
Definition BLI_StackImpl_delete (s : BLI_StackImpl) : option (list nat) :=
  freed ← clear_chunks (length (heap s)) (heap s) [] (chunk_curr s);
  clear_chunks (length (heap s)) (heap s) freed (chunk_free s).

(** void BLI_stack_free(BLI_Stack *stack) *)
Definition BLI_stack_free (s : BLI_StackImpl) : option (list nat) :=
  BLI_StackImpl_delete s.

(** ** Stacks that fit one chunk *)

(** [stays_within es cap ops n]: starting with [n] elements, the calls
    [ops] push elements of exactly [es] bytes, never remove an element from
    the empty stack and never hold more than [cap] elements at a time. *)
Fixpoint stays_within (es cap : Z) (ops : list stack_op) (n : nat) : bool :=
  match ops with
  | [] => true
  | OpPush src :: ops' =>
      bool_decide (Z.of_nat (length src) = es) &&
      bool_decide (Z.of_nat n < cap) &&
      stays_within es cap ops' (S n)
  | OpPop :: ops' | OpDiscard :: ops' =>
      match n with
      | O => false
      | S m => stays_within es cap ops' m
      end
  | OpClear :: ops' => stays_within es cap ops' 0
  end.

(** [holds es cap s st]: the stack [s], made for [cap] elements of [es]
    bytes a chunk, stores the elements [st] (the top first) in its current
    chunk, and owns at most one chunk. *)
Definition holds (es cap : Z) (s : BLI_StackImpl) (st : list (list byte))
    : Prop :=
  elem_size s = es ∧ chunk_elem_max s = cap ∧
  elem_num s = Z.of_nat (length st) ∧
  Z.of_nat (length st) ≤ cap ∧
  Forall (λ x, length x = Z.to_nat es) st ∧
  chunks_sized s ∧
  (length (heap s) ≤ 1)%nat ∧
  match st with
  | [] =>
      chunk_index s = cap - 1 ∧
      ∃ lf, lists_ok s [] lf ∧ length lf = length (heap s)
  | _ :: _ =>
      ∃ p c, lists_ok s [p] [] ∧ heap s !! p = Some c ∧
             chunk_index s = Z.of_nat (length st) - 1 ∧
             take (length st * Z.to_nat es) (data c) = concat (reverse st)
  end.

(** * Proofs *)

(** ** Wrap-around arithmetic *)

Ltac size_lia :=
  unfold is_size_t, size_wrap, SIZE_MAX, SIZE_MOD in *;
  Z.div_mod_to_equations; lia.

Lemma size_wrap_small z : is_size_t z → size_wrap z = z.
Proof. size_lia. Qed.

Lemma size_wrap_pred z : is_size_t z → size_wrap (z - 1) = SIZE_MAX ↔ z = 0.
Proof. size_lia. Qed.

Lemma size_wrap_range z : is_size_t (size_wrap z).
Proof. size_lia. Qed.

(** ** Linked lists in the store *)
Lemma chunk_list_lookup h p l a :
  chunk_list h p l → a ∈ l → is_Some (h !! a).
Proof.
  revert p. induction l as [|b l IH]; intros p Hl Ha.
  - by apply elem_of_nil in Ha.
  - destruct Hl as [-> Hl]. destruct (h !! b) as [c|] eqn:Hb; [|done].
    apply elem_of_cons in Ha as [->|Ha]; [by rewrite Hb|by eapply IH].
Qed.

Lemma chunk_list_insert_other h p l a c :
  chunk_list h p l → a ∉ l → chunk_list (<[a := c]> h) p l.
Proof.
  revert p. induction l as [|b l IH]; intros p Hl Ha; [done|].
  destruct Hl as [-> Hl]. split; [done|].
  apply not_elem_of_cons in Ha as [Hab Ha].
  rewrite list_lookup_insert_ne by done.
  destruct (h !! b) as [cb|]; [by apply IH|done].
Qed.

Lemma chunk_list_app_other h p l c :
  chunk_list h p l → chunk_list (h ++ [c]) p l.
Proof.
  revert p. induction l as [|b l IH]; intros p Hl; [done|].
  destruct Hl as [-> Hl]. split; [done|].
  destruct (h !! b) as [cb|] eqn:Hb; [|done].
  rewrite lookup_app_l by (by eapply lookup_lt_Some).
  rewrite Hb. by apply IH.
Qed.

Lemma chunk_list_bound h p l a :
  chunk_list h p l → a ∈ l → (a < length h)%nat.
Proof.
  intros Hl Ha.
  destruct (chunk_list_lookup _ _ _ _ Hl Ha) as [c Hc].
  by eapply lookup_lt_Some.
Qed.

Lemma NoDup_bounded_length (l : list nat) (n : nat) :
  NoDup l → (∀ a, a ∈ l → (a < n)%nat) → (length l ≤ n)%nat.
Proof.
  intros Hnd Hb.
  rewrite <- (length_seq n 0%nat).
  apply submseteq_length, NoDup_submseteq; [done|].
  intros a Ha. apply elem_of_seq. specialize (Hb a Ha). lia.
Qed.

Lemma last_chunk_last h l f fuel :
  chunk_list h (Some f) l → (length l ≤ fuel)%nat →
  ∃ a, last l = Some a ∧ last_chunk fuel h f = Some a.
Proof.
  revert f l. induction fuel as [|fuel IH]; intros f l Hl Hlen.
  - destruct l; simpl in *; [done|lia].
  - destruct l as [|b l]; [done|]. destruct Hl as [[= <-] Hl]. simpl.
    destruct (h !! f) as [c|] eqn:Hf; [|done]. simpl.
    destruct (next c) as [n|] eqn:Hn.
    + destruct l as [|b' l]; [done|].
      destruct (IH n (b' :: l)) as (a & Ha & Hlast); [done|simpl in *; lia|].
      exists a. split; [|done]. by rewrite last_cons, Ha.
    + destruct l as [|b' l]; [|by destruct Hl]. by exists f.
Qed.

(** Linking the tail of one list to the head of another. *)
Lemma chunk_list_link h p q l1 l2 a c :
  chunk_list h p l1 → chunk_list h q l2 → NoDup (l1 ++ l2) →
  last l1 = Some a → h !! a = Some c →
  chunk_list (<[a := {| next := q; data := data c |}]> h) p (l1 ++ l2).
Proof.
  revert p. induction l1 as [|b l1 IH]; intros p H1 H2 Hnd Hlast Ha; [done|].
  destruct H1 as [-> H1]. split; [done|].
  destruct (h !! b) as [cb|] eqn:Hb; [|done].
  simpl in Hnd. apply NoDup_cons in Hnd as [Hb_notin Hnd].
  destruct l1 as [|b' l1].
  - simplify_eq/=.
    rewrite list_lookup_insert_eq by (by eapply lookup_lt_Some).
    simpl. by apply chunk_list_insert_other.
  - rewrite last_cons_cons in Hlast.
    assert (a ≠ b) as Hab.
    { intros ->. apply Hb_notin, elem_of_app. left. by eapply last_Some_elem_of. }
    rewrite list_lookup_insert_ne by done. rewrite Hb.
    by apply IH.
Qed.

Lemma chunk_list_null h l : chunk_list h None l → l = [].
Proof. destruct l as [|a l]; [done|]. by intros [? _]. Qed.

Lemma chunk_list_functional h p l1 l2 :
  chunk_list h p l1 → chunk_list h p l2 → l1 = l2.
Proof.
  revert p l2. induction l1 as [|a l1 IH]; intros p [|b l2] H1 H2; simpl in *.
  - done.
  - destruct H2 as [? _]. congruence.
  - destruct H1 as [? _]. congruence.
  - destruct H1 as [-> H1], H2 as [[= <-] H2].
    destruct (h !! a) as [c|]; [|done]. f_equal. by eapply IH.
Qed.

(** ** [clear] *)

Lemma store_next_Some h p n c :
  h !! p = Some c →
  store_next p n h = Some (<[p := {| next := n; data := data c |}]> h).
Proof. intros Hp. unfold store_next. by rewrite Hp. Qed.

Lemma lookup_insert_data (h : store) a b n c :
  h !! a = Some c →
  data <$> (<[a := {| next := n; data := data c |}]> h) !! b = data <$> h !! b.
Proof.
  intros Ha. destruct (decide (a = b)) as [->|Hne].
  - rewrite list_lookup_insert_eq by (by eapply lookup_lt_Some). by rewrite Ha.
  - by rewrite list_lookup_insert_ne.
Qed.

Lemma clear_lists s lc lf :
  lists_ok s lc lf →
  ∃ s', clear s = Some s' ∧
        chunk_curr s' = None ∧
        chunk_index s' = size_wrap (chunk_elem_max s - 1) ∧
        elem_num s' = 0 ∧
        chunk_elem_max s' = chunk_elem_max s ∧
        elem_size s' = elem_size s ∧
        chunk_list (heap s') (chunk_free s') (lf ++ lc) ∧
        length (heap s') = length (heap s) ∧
        ∀ a, data <$> heap s' !! a = data <$> heap s !! a.
Proof.
  destruct s as [h cu fr idx cap esz num].
  intros (Hc & Hf & Hnd); simpl in *. unfold clear; simpl.
  destruct fr as [f|]; simpl.
  - destruct cu as [cu|]; simpl.
    + assert (length lf ≤ length h)%nat as Hlen.
      { apply NoDup_bounded_length.
        - by apply NoDup_app in Hnd as (_ & _ & ?).
        - intros a Ha. by eapply chunk_list_bound. }
      destruct (last_chunk_last h lf f _ Hf Hlen) as (a & Hlast & ->). simpl.
      destruct (chunk_list_lookup h (Some f) lf a Hf) as [c Ha].
      { by eapply last_Some_elem_of. }
      rewrite (store_next_Some _ _ _ _ Ha). simpl.
      eexists. split; [done|]. simpl. repeat split.
      * apply chunk_list_link; [done|done| |done|done].
        by rewrite (Permutation_app_comm lf lc).
      * by rewrite length_insert.
      * intros b. by apply lookup_insert_data.
    + apply chunk_list_null in Hc as ->. rewrite app_nil_r.
      eexists. split; [done|]. by simpl.
  - apply chunk_list_null in Hf as ->.
    eexists. split; [done|]. by simpl.
Qed.

Lemma clear_twice s s' : clear s = Some s' → clear s' = Some s'.
Proof.
  destruct s as [h cu fr idx cap esz num]. unfold clear; simpl.
  intros H.
  destruct fr as [f|]; simpl in *.
  - destruct cu as [cu|]; simpl in *.
    + destruct (last_chunk _ _ _) as [a|]; simpl in *; [|done].
      destruct (store_next _ _ _) as [h'|]; simpl in *; [|done].
      by simplify_eq.
    + by simplify_eq.
  - simplify_eq. simpl. by destruct cu.
Qed.

(** ** [discard] *)


Lemma discard_keep s :
  size_wrap (chunk_index s - 1) ≠ SIZE_MAX →
  discard s = Some (set_elem_num (size_wrap (elem_num s - 1))
                      (set_chunk_index (size_wrap (chunk_index s - 1)) s)).
Proof.
  intros Hne. unfold discard. simpl. by rewrite decide_False.
Qed.

Lemma discard_underflow s old c :
  size_wrap (chunk_index s - 1) = SIZE_MAX →
  chunk_curr s = Some old → heap s !! old = Some c →
  discard s =
    Some {| heap := <[old := {| next := chunk_free s; data := data c |}]> (heap s);
            chunk_curr := next c;
            chunk_free := Some old;
            chunk_index := size_wrap (chunk_elem_max s - 1);
            chunk_elem_max := chunk_elem_max s;
            elem_size := elem_size s;
            elem_num := size_wrap (elem_num s - 1) |}.
Proof.
  intros Hu Hcu Hold. unfold discard. simpl. rewrite decide_True by done.
  rewrite Hcu. simpl. rewrite Hold. simpl.
  by rewrite (store_next_Some _ _ _ _ Hold).
Qed.

Lemma lists_ok_discard_underflow s old c lc lf :
  lists_ok s lc lf → chunk_curr s = Some old → heap s !! old = Some c →
  lc = old :: tail lc ∧
  ∀ i n, lists_ok {| heap := <[old := {| next := chunk_free s; data := data c |}]> (heap s);
            chunk_curr := next c;
            chunk_free := Some old;
            chunk_index := i;
            chunk_elem_max := chunk_elem_max s;
            elem_size := elem_size s;
            elem_num := n |} (tail lc) (old :: lf).
Proof.
  intros (Hc & Hf & Hnd) Hcu Hold. rewrite Hcu in Hc.
  destruct lc as [|a lc]; [done|]. destruct Hc as [[= <-] Hc].
  rewrite Hold in Hc. split; [done|]. intros i n.
  simpl in Hnd. apply NoDup_cons in Hnd as [Hnotin Hnd].
  apply not_elem_of_app in Hnotin as [Hlc Hlf].
  repeat split; simpl.
  - by apply chunk_list_insert_other.
  - rewrite list_lookup_insert_eq by (by eapply lookup_lt_Some). simpl.
    by apply chunk_list_insert_other.
  - rewrite <- Permutation_middle. apply NoDup_cons. split; [|done].
    by apply not_elem_of_app.
Qed.

(** ** [allocate_new_chunk] and [push_r] *)

(** Recycling the head of the free list. *)
Lemma allocate_new_chunk_recycle s f c :
  chunk_free s = Some f → heap s !! f = Some c →
  allocate_new_chunk s =
    Some {| heap := <[f := {| next := None; data := data c |}]> (heap s);
            chunk_curr := Some f;
            chunk_free := next c;
            chunk_index := chunk_index s;
            chunk_elem_max := chunk_elem_max s;
            elem_size := elem_size s;
            elem_num := elem_num s |}.
Proof.
  intros Hf Hc. unfold allocate_new_chunk. rewrite Hf. simpl. rewrite Hc. simpl.
  by rewrite (store_next_Some _ _ _ _ Hc).
Qed.

(** Allocating a fresh chunk, when the vector constructor accepts the
    size. *)
Lemma allocate_new_chunk_fresh s :
  chunk_free s = None →
  size_wrap (elem_size s * chunk_elem_max s) ≤ VECTOR_MAX_SIZE →
  allocate_new_chunk s =
    Some {| heap := heap s ++
                    [zeroed_chunk (size_wrap (elem_size s * chunk_elem_max s))];
            chunk_curr := Some (length (heap s));
            chunk_free := None;
            chunk_index := chunk_index s;
            chunk_elem_max := chunk_elem_max s;
            elem_size := elem_size s;
            elem_num := elem_num s |}.
Proof.
  intros Hf Hmax. unfold allocate_new_chunk, StackChunk_new. rewrite Hf.
  rewrite decide_True by done. simpl.
  unfold store_next. rewrite lookup_app_r by done.
  rewrite Nat.sub_diag. simpl.
  rewrite insert_app_r_alt by done. rewrite Nat.sub_diag. simpl.
  unfold set_heap, set_chunk_curr. simpl. by rewrite Hf.
Qed.

(** With an empty free list the call returns only if the vector
    constructor accepts the size, and then with the fresh chunk. *)
Lemma allocate_new_chunk_fresh_inv s s' :
  chunk_free s = None → allocate_new_chunk s = Some s' →
  size_wrap (elem_size s * chunk_elem_max s) ≤ VECTOR_MAX_SIZE ∧
  s' = {| heap := heap s ++
                  [zeroed_chunk (size_wrap (elem_size s * chunk_elem_max s))];
          chunk_curr := Some (length (heap s));
          chunk_free := None;
          chunk_index := chunk_index s;
          chunk_elem_max := chunk_elem_max s;
          elem_size := elem_size s;
          elem_num := elem_num s |}.
Proof.
  intros Hf Hal.
  destruct (decide (size_wrap (elem_size s * chunk_elem_max s) ≤ VECTOR_MAX_SIZE))
    as [Hmax|Hbig].
  - split; [done|]. rewrite (allocate_new_chunk_fresh s Hf Hmax) in Hal.
    by simplify_eq.
  - unfold allocate_new_chunk, StackChunk_new in Hal. rewrite Hf in Hal.
    by rewrite decide_False in Hal.
Qed.

(** In both cases the new current chunk has no successor. *)
Lemma allocate_new_chunk_head s s' :
  allocate_new_chunk s = Some s' →
  ∃ p c, chunk_curr s' = Some p ∧ heap s' !! p = Some c ∧ next c = None ∧
         chunk_index s' = chunk_index s ∧
         chunk_elem_max s' = chunk_elem_max s ∧
         elem_size s' = elem_size s ∧
         elem_num s' = elem_num s.
Proof.
  intros Hal. destruct (chunk_free s) as [f|] eqn:Hf.
  - destruct (heap s !! f) as [c|] eqn:Hc.
    + rewrite (allocate_new_chunk_recycle s f c Hf Hc) in Hal. simplify_eq.
      exists f, {| next := None; data := data c |}. simpl. split_and!; try done.
      rewrite list_lookup_insert_eq; [done|]. by eapply lookup_lt_Some.
    + unfold allocate_new_chunk in Hal. rewrite Hf in Hal. simpl in Hal.
      by rewrite Hc in Hal.
  - apply (allocate_new_chunk_fresh_inv s s' Hf) in Hal as [_ ->].
    exists (length (heap s)),
           (zeroed_chunk (size_wrap (elem_size s * chunk_elem_max s))).
    simpl. split_and!; try done.
    rewrite lookup_app_r by done. by rewrite Nat.sub_diag.
Qed.

(** Taking a chunk from the free list involves no allocation: it
    returns whenever the free list's head is an allocated chunk. *)
Lemma allocate_new_chunk_recycle_defined s f :
  chunk_free s = Some f → is_Some (heap s !! f) →
  is_Some (allocate_new_chunk s).
Proof.
  intros Hf [c Hc]. by rewrite (allocate_new_chunk_recycle s f c Hf Hc).
Qed.

Lemma chunk_list_single h p c :
  h !! p = Some c → next c = None → chunk_list h (Some p) [p].
Proof. intros Hp Hn. simpl. by rewrite Hp. Qed.

(** A [push_r] that fills the current chunk returns exactly when
    [allocate_new_chunk] does, with the first slot of the new current
    chunk. *)
Lemma push_r_new_chunk_defined s s1 :
  size_wrap (chunk_index s + 1) = chunk_elem_max s →
  allocate_new_chunk (set_chunk_index (chunk_elem_max s) s) = Some s1 →
  ∃ p c, chunk_curr s1 = Some p ∧ heap s1 !! p = Some c ∧ next c = None ∧
         push_r s = Some ((p, size_wrap (elem_size s * 0)),
                          set_elem_num (size_wrap (elem_num s + 1))
                            (set_chunk_index 0 s1)).
Proof.
  intros Htrig Hal.
  destruct (allocate_new_chunk_head _ _ Hal)
    as (p & c & Hcu & Hp & Hn & _ & _ & Hsz & Hnum).
  exists p, c. split_and!; try done.
  unfold push_r. simpl. rewrite Htrig, decide_True by done.
  rewrite Hal. simpl. unfold get_last_elem. simpl. rewrite Hcu. simpl.
  rewrite Hp. simpl. by rewrite Hsz, Hnum.
Qed.

Lemma push_r_new_chunk s dst s' :
  size_wrap (chunk_index s + 1) = chunk_elem_max s →
  push_r s = Some (dst, s') →
  ∃ s1 p c, allocate_new_chunk (set_chunk_index (chunk_elem_max s) s) = Some s1 ∧
            chunk_curr s1 = Some p ∧ heap s1 !! p = Some c ∧ next c = None ∧
            dst = (p, size_wrap (elem_size s * 0)) ∧
            s' = set_elem_num (size_wrap (elem_num s + 1)) (set_chunk_index 0 s1).
Proof.
  intros Htrig Hpush.
  destruct (allocate_new_chunk (set_chunk_index (chunk_elem_max s) s))
    as [s1|] eqn:Hal.
  - destruct (push_r_new_chunk_defined s s1 Htrig Hal)
      as (p & c & Hcu & Hp & Hn & Hpush').
    rewrite Hpush' in Hpush. simplify_eq. by exists s1, p, c.
  - unfold push_r in Hpush. simpl in Hpush.
    rewrite Htrig, decide_True in Hpush by done. by rewrite Hal in Hpush.
Qed.

(** Only the [next] fields matter for the shape of a list. *)
Lemma chunk_list_ext (h h' : store) p l :
  (∀ a, next <$> h' !! a = next <$> h !! a) →
  chunk_list h p l → chunk_list h' p l.
Proof.
  intros Hext. revert p. induction l as [|b l IH]; intros p Hl; [done|].
  destruct Hl as [-> Hl]. split; [done|]. specialize (Hext b).
  destruct (h !! b) as [c|]; [|done].
  destruct (h' !! b) as [c'|]; simplify_eq/=.
  rewrite Hext. by apply IH.
Qed.

(** Writing an element leaves every [next] field as it is. *)
Lemma memcpy_to_slot_next dst src n (h h' : store) :
  memcpy_to_slot dst src n h = Some h' →
  ∀ a, next <$> h' !! a = next <$> h !! a.
Proof.
  unfold memcpy_to_slot. intros Hm a.
  destruct (h !! dst.1) as [c|] eqn:Hc; simpl in Hm; [|done].
  case_decide; simplify_eq.
  destruct (decide (dst.1 = a)) as [<-|Hne].
  - rewrite list_lookup_insert_eq by (by eapply lookup_lt_Some). by rewrite Hc.
  - by rewrite list_lookup_insert_ne.
Qed.


(** ** The two lists stay well formed *)


Lemma lists_wf_new elem_size chunk_size :
  lists_wf (BLI_StackImpl_new elem_size chunk_size).
Proof. exists [], []. unfold lists_ok. simpl. split_and!; [done|done|constructor]. Qed.

Lemma lists_wf_allocate_new_chunk s s' :
  lists_wf s → allocate_new_chunk s = Some s' → lists_wf s'.
Proof.
  intros (lc & lf & Hc & Hf & Hnd) Hal.
  destruct (chunk_free s) as [f|] eqn:Hfr.
  - destruct lf as [|a lf]; [done|]. destruct Hf as [[= <-] Hf].
    destruct (heap s !! f) as [c|] eqn:Hc'; [|done].
    rewrite (allocate_new_chunk_recycle s f c Hfr Hc') in Hal. simplify_eq.
    apply NoDup_app in Hnd as (_ & _ & Hnd). apply NoDup_cons in Hnd as [Hnotin Hnd].
    exists [f], lf. unfold lists_ok; simpl. split_and!; try done.
    + rewrite list_lookup_insert_eq; [done|]. by eapply lookup_lt_Some.
    + by apply chunk_list_insert_other.
    + by apply NoDup_cons.
  - apply (allocate_new_chunk_fresh_inv s s' Hfr) in Hal as [_ ->].
    exists [length (heap s)], []. unfold lists_ok; simpl. split_and!; try done.
    + by rewrite lookup_app_r, Nat.sub_diag.
    + apply NoDup_singleton.
Qed.

Lemma lists_wf_set_chunk_index i s : lists_wf s → lists_wf (set_chunk_index i s).
Proof. intros (lc & lf & H). by exists lc, lf. Qed.

Lemma lists_wf_set_elem_num n s : lists_wf s → lists_wf (set_elem_num n s).
Proof. intros (lc & lf & H). by exists lc, lf. Qed.

Lemma lists_wf_push_r s dst s' :
  lists_wf s → push_r s = Some (dst, s') → lists_wf s'.
Proof.
  intros Hwf Hp. unfold push_r in Hp.
  case_decide.
  - destruct (allocate_new_chunk _) as [s1|] eqn:Hal; simpl in Hp; [|done].
    destruct (get_last_elem _); simplify_eq/=.
    apply lists_wf_set_elem_num, lists_wf_set_chunk_index.
    eapply lists_wf_allocate_new_chunk; [|done].
    by apply lists_wf_set_chunk_index.
  - simpl in Hp. destruct (get_last_elem _); simplify_eq/=.
    by apply lists_wf_set_elem_num, lists_wf_set_chunk_index.
Qed.

Lemma lists_wf_push src s s' :
  lists_wf s → push src s = Some s' → lists_wf s'.
Proof.
  intros Hwf Hp. unfold push in Hp.
  destruct (push_r s) as [[dst s1]|] eqn:Hr; simpl in Hp; [|done].
  destruct (memcpy_to_slot _ _ _ _) as [h|] eqn:Hm; simplify_eq/=.
  destruct (lists_wf_push_r _ _ _ Hwf Hr) as (lc & lf & Hc & Hf & Hnd).
  pose proof (memcpy_to_slot_next _ _ _ _ _ Hm) as Hext.
  exists lc, lf. split_and!; [| |done].
  - exact (chunk_list_ext (heap s1) h _ _ Hext Hc).
  - exact (chunk_list_ext (heap s1) h _ _ Hext Hf).
Qed.

Lemma lists_wf_discard s s' :
  lists_wf s → discard s = Some s' → lists_wf s'.
Proof.
  intros Hwf Hd.
  destruct (decide (size_wrap (chunk_index s - 1) = SIZE_MAX)) as [Hu|Hk].
  - destruct (chunk_curr s) as [old|] eqn:Hcu.
    + destruct (heap s !! old) as [c|] eqn:Hold.
      * rewrite (discard_underflow s old c Hu Hcu Hold) in Hd. simplify_eq.
        destruct Hwf as (lc & lf & Hok).
        exists (tail lc), (old :: lf).
        by apply (lists_ok_discard_underflow s old c lc lf).
      * unfold discard in Hd. simpl in Hd. rewrite decide_True in Hd by done.
        rewrite Hcu in Hd. simpl in Hd. by rewrite Hold in Hd.
    + unfold discard in Hd. simpl in Hd. rewrite decide_True in Hd by done.
      by rewrite Hcu in Hd.
  - rewrite (discard_keep s Hk) in Hd. simplify_eq.
    by apply lists_wf_set_elem_num, lists_wf_set_chunk_index.
Qed.

Lemma lists_wf_pop s dst s' :
  lists_wf s → pop s = Some (dst, s') → lists_wf s'.
Proof.
  intros Hwf Hp. unfold pop in Hp.
  destruct (get_last_elem s); simpl in Hp; [|done].
  destruct (memcpy_from_slot _ _ _); simpl in Hp; [|done].
  destruct (discard s) as [s1|] eqn:Hd; simplify_eq/=.
  by eapply lists_wf_discard.
Qed.

Lemma lists_wf_clear s s' :
  lists_wf s → clear s = Some s' → lists_wf s'.
Proof.
  intros (lc & lf & Hok) Hcl.
  destruct (clear_lists s lc lf Hok) as (s1 & Hs1 & Hcu & _ & _ & _ & _ & Hl & _).
  rewrite Hcl in Hs1. simplify_eq.
  exists [], (lf ++ lc). unfold lists_ok. rewrite Hcu. split_and!; [done|done|].
  destruct Hok as (_ & _ & Hnd). simpl. by rewrite (Permutation_app_comm lf lc).
Qed.

Lemma lists_wf_valid_free s : lists_wf s → valid_ptr (heap s) (chunk_free s).
Proof.
  intros (lc & lf & _ & Hf & _). destruct lf as [|a lf]; simpl in Hf.
  - by rewrite Hf.
  - destruct Hf as [-> Hf]. simpl. by destruct (heap s !! a).
Qed.

(** A push that exits by an exception has only moved the cursor. *)
Lemma push_r_throws_state s s' :
  push_r_throws s = Some s' →
  s' = set_chunk_index (size_wrap (chunk_index s + 1)) s ∧
  size_wrap (chunk_index s + 1) = chunk_elem_max s ∧
  chunk_free s = None.
Proof.
  unfold push_r_throws. simpl. intros H. case_decide; [|done].
  destruct (chunk_free s); by simplify_eq.
Qed.

(** Every state the operations produce from a new stack has two well-formed
    lists. *)
Lemma reachable_lists_wf s : reachable s → lists_wf s.
Proof.
  induction 1 as [| | s s' _ IH Ht | | | | ].
  - apply lists_wf_new.
  - by eapply lists_wf_push_r.
  - apply push_r_throws_state in Ht as (-> & _). by apply lists_wf_set_chunk_index.
  - by eapply lists_wf_push.
  - by eapply lists_wf_pop.
  - by eapply lists_wf_discard.
  - by eapply lists_wf_clear.
Qed.

(** ** [pop] and [peek] *)

Lemma pop_unfold s : pop s = pop_via_peek_discard s.
Proof.
  unfold pop, pop_via_peek_discard, peek_value, peek.
  destruct (get_last_elem s) as [src|]; [|done]. simpl.
  by destruct (memcpy_from_slot _ _ _).
Qed.

Lemma discard_defined s : is_Some (head_chunk s) → is_Some (discard s).
Proof.
  intros [c Hc]. unfold head_chunk in Hc.
  destruct (chunk_curr s) as [old|] eqn:Hcu; [|done]. simpl in Hc.
  destruct (decide (size_wrap (chunk_index s - 1) = SIZE_MAX)) as [Hu|Hk].
  - by rewrite (discard_underflow s old c Hu Hcu Hc).
  - by rewrite (discard_keep s Hk).
Qed.

Lemma top_slot_ok_head s : top_slot_ok s → is_Some (head_chunk s).
Proof.
  unfold top_slot_ok, head_chunk.
  destruct (chunk_curr s) as [p|]; [|done]. simpl.
  by destruct (heap s !! p).
Qed.

Lemma peek_value_defined s : top_slot_ok s → is_Some (peek_value s).
Proof.
  unfold top_slot_ok, peek_value, peek, get_last_elem, memcpy_from_slot.
  destruct (chunk_curr s) as [p|]; [|done]. simpl.
  destruct (heap s !! p) as [c|] eqn:Hp; [|done]. simpl. rewrite Hp. simpl.
  intros [Hsz Hlen]. rewrite decide_True; [done|].
  split_and!; [size_lia|done|done].
Qed.

(** * The claims of the specification *)

(** ** C1: LIFO order *)

(** C1. The specification asks that every pop returns the most recently
    pushed element that is still on the stack, also when the elements span
    several chunks.  With four elements per chunk and five one-byte pushes, a
    standard LIFO stack answers the two pops with 5 and then 4.  The code
    answers the first pop with 5; that pop empties the second chunk, whose
    [next] is null, so [chunk_curr] becomes null although four elements are
    counted, and the second pop reads through the null pointer: the run is
    undefined. *)
Theorem lifo_lost_across_chunk_boundary :
  lifo_ops five_pushes_two_pops []
    = Some ([[x05]; [x04]], [[x03]; [x02]; [x01]]) ∧
  outputs_of (take 6 five_pushes_two_pops) (BLI_StackImpl_new 1 4)
    = Some [[x05]] ∧
  chunk_curr <$> state_after (take 6 five_pushes_two_pops) (BLI_StackImpl_new 1 4)
    = Some None ∧
  count <$> state_after (take 6 five_pushes_two_pops) (BLI_StackImpl_new 1 4)
    = Some 4 ∧
  run_ops five_pushes_two_pops (BLI_StackImpl_new 1 4) = None.
Proof. by vm_compute. Qed.

(** ** C2: the push that fills a chunk *)

(** C2. The specification asks that the chunk obtained by a push that fills
    the current chunk is linked in front of the previously current chunk.
    After four one-byte pushes (four elements per chunk) the current chunk is
    chunk 0 and the next push fills it; the code makes chunk 1 current, resets
    [chunk_index] to 0 and counts five elements, but the [next] of chunk 1 is
    null instead of chunk 0: the active list is chunk 1 alone and chunk 0 is
    on neither list. *)
Theorem push_unlinks_previous_chunk :
  ∃ s4 dst s5,
    state_after (take 4 five_pushes_two_pops) (BLI_StackImpl_new 1 4) = Some s4 ∧
    chunk_curr s4 = Some 0%nat ∧
    size_wrap (chunk_index s4 + 1) = chunk_elem_max s4 ∧
    push_r s4 = Some (dst, s5) ∧
    chunk_curr s5 = Some 1%nat ∧
    next <$> heap s5 !! 1%nat = Some None ∧
    chunk_index s5 = 0 ∧
    elem_num s5 = 5 ∧
    lists_ok s5 [1%nat] [].
Proof.
  eexists _, _, _. split; [by vm_compute|]. split; [done|].
  split; [by vm_compute|]. split; [by vm_compute|].
  do 4 (split; [done|]). unfold lists_ok. simpl.
  split_and!; [done|done|done|apply NoDup_singleton].
Qed.

(** ** C3: construction *)

(** C3, as stated, fails: construction with a zero element size or a zero
    chunk capacity is not rejected, it yields a stack object.  With a zero
    chunk capacity the cursor starts at [SIZE_MAX]. *)
Lemma new_accepts_zero_sizes :
  BLI_stack_new_ex 0 4 = Some (mkStack [] None None 3 4 0 0) ∧
  BLI_stack_new_ex 4 0 = Some (mkStack [] None None SIZE_MAX 0 4 0) ∧
  BLI_stack_new_ex 0 0 ≠ None.
Proof. by vm_compute. Qed.

(** C3, amended.  Construction never fails: for all arguments, zero
    included, it yields a stack that owns no chunk, whose two lists are
    null, whose cursor is [chunk_size - 1] in [size_t] arithmetic and whose
    count is 0; [BLI_stack_new] is the same with 65536 elements a chunk. *)
Theorem new_never_fails (size chunk_size : Z) :
  ∃ s, BLI_stack_new_ex size chunk_size = Some s ∧
       heap s = [] ∧
       chunk_curr s = None ∧
       chunk_free s = None ∧
       chunk_index s = size_wrap (chunk_size - 1) ∧
       chunk_elem_max s = chunk_size ∧
       elem_size s = size ∧
       count s = 0 ∧
       is_empty s = true ∧
       BLI_stack_new size = BLI_stack_new_ex size 65536.
Proof. eexists. split; [done|]. by split_and!. Qed.

(** ** C4: [discard] *)

(** C4. The specification asks that on every non-empty stack [discard]
    decrements the count by exactly one, unlinking the head chunk when the
    cursor underflows.  With one element a chunk, two one-byte pushes and a
    pop leave a stack that counts one element (a LIFO stack still holds the
    first byte, and a further discard empties it).  In the code the second
    push has dropped the first chunk (its new chunk's [next] is null), so
    the pop has left [chunk_curr] null with the cursor at 0: the discard
    underflows and reads [chunk_curr->next] through the null pointer.  The
    call is undefined and the count is not decremented. *)
Theorem discard_undefined_after_chunk_boundary :
  lifo_ops (two_pushes_one_pop ++ [OpDiscard]) [] = Some ([[x02]], []) ∧
  outputs_of two_pushes_one_pop (BLI_StackImpl_new 1 1) = Some [[x02]] ∧
  count <$> state_after two_pushes_one_pop (BLI_StackImpl_new 1 1) = Some 1 ∧
  is_empty <$> state_after two_pushes_one_pop (BLI_StackImpl_new 1 1)
    = Some false ∧
  chunk_index <$> state_after two_pushes_one_pop (BLI_StackImpl_new 1 1)
    = Some 0 ∧
  chunk_curr <$> state_after two_pushes_one_pop (BLI_StackImpl_new 1 1)
    = Some None ∧
  state_after two_pushes_one_pop (BLI_StackImpl_new 1 1) ≫= discard = None ∧
  run_ops (two_pushes_one_pop ++ [OpDiscard]) (BLI_StackImpl_new 1 1) = None.
Proof. by vm_compute. Qed.

(** ** C5: [clear] *)

(** C5. From every state whose two lists are well formed, [clear] returns;
    afterwards the free list is the old free list followed by the old active
    list (the chunks freed earlier stay where they were), [chunk_curr] is
    null, [chunk_index] is the initial sentinel [chunk_elem_max - 1] and the
    count is 0.  No chunk is allocated and no element byte is touched.  The
    empty stack is one such state: its count stays 0. *)
Theorem clear_appends_active_list (s : BLI_StackImpl) (lc lf : list nat) :
  lists_ok s lc lf →
  ∃ s', clear s = Some s' ∧
        chunk_list (heap s') (chunk_free s') (lf ++ lc) ∧
        chunk_curr s' = None ∧
        chunk_index s' = size_wrap (chunk_elem_max s - 1) ∧
        chunk_index s' =
          chunk_index (BLI_StackImpl_new (elem_size s) (chunk_elem_max s)) ∧
        (1 ≤ chunk_elem_max s ≤ SIZE_MAX →
           chunk_index s' = chunk_elem_max s - 1) ∧
        elem_num s' = 0 ∧
        count s' = 0 ∧
        is_empty s' = true ∧
        chunk_elem_max s' = chunk_elem_max s ∧
        elem_size s' = elem_size s ∧
        length (heap s') = length (heap s) ∧
        ∀ a, data <$> heap s' !! a = data <$> heap s !! a.
Proof.
  intros Hok.
  destruct (clear_lists s lc lf Hok)
    as (s' & Hcl & Hcu & Hi & Hn & Hm & He & Hl & Hlen & Hd).
  exists s'. unfold count, is_empty. rewrite Hn.
  split; [done|]. split; [exact Hl|].
  split_and!; try done. intros Hcap. rewrite Hi. size_lia.
Qed.

Lemma clear_appends_active_list_witness :
  ∃ s', clear two_lists_state = Some s' ∧
        chunk_list (heap s') (chunk_free s') [2; 3; 0; 1]%nat ∧
        chunk_curr s' = None ∧
        count s' = 0.
Proof.
  destruct (clear_appends_active_list two_lists_state [0; 1]%nat [2; 3]%nat)
    as (s' & Hcl & Hl & Hcu & _ & _ & _ & _ & Hn & _).
  - unfold lists_ok. simpl. split_and!; try done.
    compute_done.
  - by exists s'.
Defined.

(** ** C6: the count *)

(** C6. The specification asks that after N pushes and M pops, none on an
    empty stack, [count] is N - M.  With two elements per chunk, three pushes
    and two pops never empty a LIFO stack and leave one element.  The code
    counts 2 after the first pop, but that pop has left [chunk_curr] null and
    the second pop reads through it: the run is undefined and there is no
    count to read.  [is_empty] does agree with a zero count in every
    state. *)
Theorem count_lost_across_chunk_boundary :
  lifo_ops three_pushes_two_pops [] = Some ([[x0c]; [x0b]], [[x0a]]) ∧
  count <$> state_after (take 4 three_pushes_two_pops) (BLI_StackImpl_new 1 2)
    = Some 2 ∧
  chunk_curr <$> state_after (take 4 three_pushes_two_pops) (BLI_StackImpl_new 1 2)
    = Some None ∧
  run_ops three_pushes_two_pops (BLI_StackImpl_new 1 2) = None ∧
  ∀ s, is_empty s = true ↔ count s = 0.
Proof.
  do 4 (split; [by vm_compute|]).
  intros s. unfold is_empty, count. apply bool_decide_eq_true.
Qed.

(** ** C7: the end-to-end scenario *)

(** C7, as stated, fails.  After the six pushes the count is 6 and the two
    pops return 6 and 5 and leave a count of 4, but the second pop has left
    [chunk_curr] null, so the peek that should return 4 dereferences a null
    pointer.  Moreover the clear has no active chunk to free ([chunk_curr] is
    null before it): chunk 1, which later receives the value 7, was put on
    the free list by the second pop, not by the clear. *)
Lemma scenario_peek_undefined_chunk_freed_by_pop :
  count <$> state_after scenario_pushes scenario_start = Some 6 ∧
  outputs_of scenario_pops scenario_start
    = Some [int32_bytes 6; int32_bytes 5] ∧
  count <$> state_after scenario_pops scenario_start = Some 4 ∧
  peek <$> state_after scenario_pops scenario_start = Some None ∧
  peek_value <$> state_after scenario_pops scenario_start = Some None ∧
  chunk_curr <$> state_after scenario_pops scenario_start = Some None ∧
  chunk_free <$> state_after scenario_pops scenario_start = Some (Some 1%nat) ∧
  state_after scenario_pops scenario_start ≫= peek_value
    ≠ Some (int32_bytes 4).
Proof. by vm_compute. Qed.

(** C7, amended (the peek is left out).  After pushing 1 to 6 the count is
    6; two pops return 6 and then 5 and leave a count of 4; [clear] sets the
    count to 0; pushing 7 and 8 gives a count of 2, and the slot of the value
    7 is the first slot of chunk 1: the chunk that was current before the
    second pop, that this pop put at the head of the free list, and that the
    clear left there. *)
Theorem scenario_reuses_chunk_freed_by_pop :
  count <$> state_after scenario_pushes scenario_start = Some 6 ∧
  outputs_of scenario_pops scenario_start
    = Some [int32_bytes 6; int32_bytes 5] ∧
  count <$> state_after scenario_pops scenario_start = Some 4 ∧
  count <$> state_after scenario_clear scenario_start = Some 0 ∧
  count <$> state_after scenario_refill scenario_start = Some 2 ∧
  chunk_curr <$> state_after (scenario_pushes ++ [OpPop]) scenario_start
    = Some (Some 1%nat) ∧
  chunk_free <$> state_after scenario_pops scenario_start = Some (Some 1%nat) ∧
  chunk_free <$> state_after scenario_clear scenario_start = Some (Some 1%nat) ∧
  state_after (scenario_clear ++ push_ints [7]) scenario_start ≫= peek
    = Some (1%nat, 0) ∧
  state_after (scenario_clear ++ push_ints [7]) scenario_start ≫= peek_value
    = Some (int32_bytes 7) ∧
  state_after scenario_refill scenario_start ≫= peek_value
    = Some (int32_bytes 8).
Proof. by vm_compute. Qed.

(** ** C8: [pop] is [peek], copy, [discard] *)

(** C8. When the slot of the top element lies inside the current chunk,
    [pop] returns, and it returns what copying [elem_size] bytes from
    [peek()] and then calling [discard()] returns: the same bytes and the
    same state. *)
Theorem pop_is_peek_copy_discard (s : BLI_StackImpl) :
  top_slot_ok s →
  ∃ dst s', pop s = Some (dst, s') ∧
            pop_via_peek_discard s = Some (dst, s') ∧
            peek_value s = Some dst ∧
            discard s = Some s'.
Proof.
  intros Hok.
  destruct (peek_value_defined s Hok) as [dst Hdst].
  destruct (discard_defined s (top_slot_ok_head s Hok)) as [s' Hs'].
  exists dst, s'. rewrite pop_unfold. unfold pop_via_peek_discard.
  by rewrite Hdst, Hs'.
Qed.

Lemma pop_is_peek_copy_discard_witness :
  ∃ s', pop two_lists_state = Some ([x05], s') ∧
        pop_via_peek_discard two_lists_state = Some ([x05], s').
Proof.
  destruct (pop_is_peek_copy_discard two_lists_state)
    as (dst & s' & Hp & Hv & Hd & _).
  - unfold top_slot_ok. simpl. by vm_compute.
  - exists s'. assert (dst = [x05]) as -> by (vm_compute in Hd; congruence).
    done.
Defined.

(** ** C9: the chunk a push makes current *)

(** C9. After every push that fills the current chunk, so that it
    calls [allocate_new_chunk], the chunk it has made current has a null
    [next], whether it came from the free list or was newly allocated:
    right after the push the active list is that one chunk.  This holds
    whenever [push_r] returns, and whenever [push] returns.  A push that
    takes its chunk from the free list allocates nothing and does return. *)
Theorem push_new_chunk_has_no_successor (s : BLI_StackImpl) :
  size_wrap (chunk_index s + 1) = chunk_elem_max s →
  (∀ dst s', push_r s = Some (dst, s') →
     ∃ p c, dst.1 = p ∧
            chunk_curr s' = Some p ∧ heap s' !! p = Some c ∧ next c = None ∧
            chunk_list (heap s') (chunk_curr s') [p]) ∧
  (∀ src s'', push src s = Some s'' →
     ∃ p, chunk_curr s'' = Some p ∧
          next <$> heap s'' !! p = Some None ∧
          chunk_list (heap s'') (chunk_curr s'') [p]) ∧
  (∀ f, chunk_free s = Some f → is_Some (heap s !! f) → is_Some (push_r s)).
Proof.
  intros Htrig.
  assert (∀ dst s', push_r s = Some (dst, s') →
            ∃ p c, dst.1 = p ∧
                   chunk_curr s' = Some p ∧ heap s' !! p = Some c ∧ next c = None ∧
                   chunk_list (heap s') (chunk_curr s') [p]) as Hr.
  { intros dst s' Hpush.
    destruct (push_r_new_chunk s dst s' Htrig Hpush)
      as (s1 & p & c & _ & Hcu & Hp & Hn & -> & ->).
    exists p, c. simpl. do 4 (split; [done|]).
    rewrite Hcu. by apply chunk_list_single with c. }
  split; [exact Hr|]. split.
  - intros src s'' Hs''. unfold push in Hs''.
    destruct (push_r s) as [[dst s1]|] eqn:Hpush; simpl in Hs''; [|done].
    destruct (memcpy_to_slot _ _ _ _) as [h|] eqn:Hm; simplify_eq/=.
    destruct (Hr dst s1 eq_refl) as (p & c & _ & Hcu & Hp & Hn & Hl).
    pose proof (memcpy_to_slot_next _ _ _ _ _ Hm) as Hext.
    exists p. split; [done|]. split.
    + by rewrite Hext, Hp, <- Hn.
    + exact (chunk_list_ext (heap s1) h (chunk_curr s1) [p] Hext Hl).
  - intros f Hf Hvalid.
    destruct (allocate_new_chunk_recycle_defined
                (set_chunk_index (chunk_elem_max s) s) f Hf Hvalid) as [s1 Hal].
    destruct (push_r_new_chunk_defined s s1 Htrig Hal) as (p & c & _ & _ & _ & ->).
    by eexists.
Qed.

Lemma push_new_chunk_has_no_successor_witness :
  ∃ dst s', push_r full_chunk_state = Some (dst, s') ∧
            chunk_list (heap s') (chunk_curr s') [1%nat].
Proof.
  destruct (push_r full_chunk_state) as [[dst s']|] eqn:Hp;
    [|vm_compute in Hp; discriminate].
  destruct (push_new_chunk_has_no_successor full_chunk_state) as (Hr & _).
  - vm_compute. reflexivity.
  - destruct (Hr dst s' Hp) as (p & c & Hdst & Hcu & _ & _ & Hl).
    exists dst, s'. split; [reflexivity|].
    assert (p = 1%nat) as <-; [|exact Hl].
    rewrite <- Hdst. vm_compute in Hp. injection Hp as <- _. reflexivity.
Defined.

(** ** C10: [clear] twice *)

(** C10. From every state whose two lists are well formed, [clear] returns
    a state on which a second [clear] returns the very same state: the
    pointers, the cursor, the count and the chunks are all unchanged. *)
Theorem clear_idempotent (s : BLI_StackImpl) (lc lf : list nat) :
  lists_ok s lc lf →
  ∃ s', clear s = Some s' ∧ clear s' = Some s' ∧ clear s ≫= clear = clear s.
Proof.
  intros Hok. destruct (clear_lists s lc lf Hok) as (s' & Hcl & _).
  pose proof (clear_twice s s' Hcl) as Htw.
  exists s'. split_and!; [done|done|]. rewrite Hcl. simpl. done.
Qed.

Lemma clear_idempotent_witness :
  ∃ s', clear two_lists_state = Some s' ∧ clear s' = Some s'.
Proof.
  destruct (clear_idempotent two_lists_state [0; 1]%nat [2; 3]%nat)
    as (s' & Hcl & Htw & _).
  - unfold lists_ok. simpl. split_and!; try done.
    compute_done.
  - by exists s'.
Defined.

(** * Further properties of the code *)

(** ** What each operation does to the scalar members *)

Lemma allocate_new_chunk_fields s s' :
  allocate_new_chunk s = Some s' →
  chunk_index s' = chunk_index s ∧ chunk_elem_max s' = chunk_elem_max s ∧
  elem_size s' = elem_size s ∧ elem_num s' = elem_num s.
Proof.
  intros H.
  by destruct (allocate_new_chunk_head s s' H) as (p & c & _ & _ & _ & ? & ? & ? & ?).
Qed.

Lemma push_r_fields s dst s' :
  push_r s = Some (dst, s') →
  chunk_elem_max s' = chunk_elem_max s ∧
  elem_size s' = elem_size s ∧
  elem_num s' = size_wrap (elem_num s + 1) ∧
  chunk_index s' =
    (if decide (size_wrap (chunk_index s + 1) = chunk_elem_max s)
     then 0 else size_wrap (chunk_index s + 1)).
Proof.
  unfold push_r. simpl. intros H. case_decide.
  - destruct (allocate_new_chunk _) as [s1|] eqn:Hal; simpl in H; [|done].
    apply allocate_new_chunk_fields in Hal as (_ & Hm & He & Hn). simpl in *.
    destruct (get_last_elem _); simplify_eq/=. by rewrite Hm, He, Hn.
  - simpl in H. destruct (get_last_elem _); by simplify_eq/=.
Qed.

Lemma discard_fields s s' :
  discard s = Some s' →
  chunk_elem_max s' = chunk_elem_max s ∧
  elem_size s' = elem_size s ∧
  elem_num s' = size_wrap (elem_num s - 1) ∧
  chunk_index s' =
    (if decide (size_wrap (chunk_index s - 1) = SIZE_MAX)
     then size_wrap (chunk_elem_max s - 1) else size_wrap (chunk_index s - 1)).
Proof.
  unfold discard. simpl. intros H. case_decide.
  - destruct (chunk_curr s) as [old|]; simpl in H; [|done].
    destruct (heap s !! old) as [c|]; simpl in H; [|done].
    destruct (store_next _ _ _); by simplify_eq/=.
  - by simplify_eq/=.
Qed.

Lemma clear_fields s s' :
  clear s = Some s' →
  chunk_elem_max s' = chunk_elem_max s ∧
  elem_size s' = elem_size s ∧
  elem_num s' = 0 ∧
  chunk_index s' = size_wrap (chunk_elem_max s - 1) ∧
  chunk_curr s' = None.
Proof.
  unfold clear. simpl. intros H.
  destruct (chunk_free s) as [f|]; simpl in H.
  - destruct (chunk_curr s) as [cu|]; simpl in H.
    + destruct (last_chunk _ _ _); simpl in H; [|done].
      destruct (store_next _ _ _); by simplify_eq/=.
    + by simplify_eq/=.
  - by simplify_eq/=.
Qed.

(** ** Induction over the reachable states *)

(** [push] is [push_r] followed by a copy into the store, [pop] changes
    the state as [discard] does, and a push that exits by an exception has
    only moved the cursor: an invariant needs five cases. *)
Lemma reachable_invariant (P : BLI_StackImpl → Prop) :
  (∀ es cs, P (BLI_StackImpl_new es cs)) →
  (∀ s dst s', reachable s → P s → push_r s = Some (dst, s') → P s') →
  (∀ s i, reachable s → P s → P (set_chunk_index i s)) →
  (∀ s dst src h, reachable s → P s →
     memcpy_to_slot dst src (elem_size s) (heap s) = Some h → P (set_heap h s)) →
  (∀ s s', reachable s → P s → discard s = Some s' → P s') →
  (∀ s s', reachable s → P s → clear s = Some s' → P s') →
  ∀ s, reachable s → P s.
Proof.
  intros Hnew Hpush_r Hthrow Hcopy Hdiscard Hclear s Hs.
  induction Hs as [| s dst s' Hs IH Hp | s s' Hs IH Ht | src s s' Hs IH Hp
                   | s dst s' Hs IH Hp | s s' Hs IH Hd | s s' Hs IH Hc ].
  - apply Hnew.
  - by eapply Hpush_r.
  - apply push_r_throws_state in Ht as (-> & _). by apply Hthrow.
  - unfold push in Hp.
    destruct (push_r s) as [[dst s1]|] eqn:Hr; simpl in Hp; [|done].
    destruct (memcpy_to_slot _ _ _ _) as [h|] eqn:Hm; simplify_eq/=.
    eapply Hcopy; [by eapply reach_push_r|by eapply Hpush_r|done].
  - unfold pop in Hp.
    destruct (get_last_elem s); simpl in Hp; [|done].
    destruct (memcpy_from_slot _ _ _); simpl in Hp; [|done].
    destruct (discard s) as [s1|] eqn:Hd; simplify_eq/=.
    by eapply Hdiscard.
  - by eapply Hdiscard.
  - by eapply Hclear.
Qed.

(** ** Invariants of the reachable states *)

(** Chunks are never resized. *)
Lemma store_next_data p n (h h' : store) a c' :
  store_next p n h = Some h' → h' !! a = Some c' →
  ∃ c, h !! a = Some c ∧ data c' = data c.
Proof.
  unfold store_next. intros Hs Ha.
  destruct (h !! p) as [cp|] eqn:Hp; simplify_eq/=.
  destruct (decide (p = a)) as [->|Hne].
  - rewrite list_lookup_insert_eq in Ha by (by eapply lookup_lt_Some).
    simplify_eq/=. by exists cp.
  - rewrite list_lookup_insert_ne in Ha by done. by exists c'.
Qed.

Lemma store_next_length p n (h h' : store) :
  store_next p n h = Some h' → length h' = length h.
Proof.
  unfold store_next. intros Hs.
  destruct (h !! p) as [cp|]; simplify_eq/=. by rewrite length_insert.
Qed.

Lemma memcpy_to_slot_data_length dst src n (h h' : store) a c' :
  memcpy_to_slot dst src n h = Some h' → h' !! a = Some c' →
  ∃ c, h !! a = Some c ∧ length (data c') = length (data c).
Proof.
  destruct dst as [p off]. unfold memcpy_to_slot. simpl. intros Hm Ha.
  destruct (h !! p) as [cp|] eqn:Hp; simpl in Hm; [|done].
  case_decide as Hb; simplify_eq.
  destruct (decide (p = a)) as [->|Hne].
  - rewrite list_lookup_insert_eq in Ha by (by eapply lookup_lt_Some).
    simplify_eq/=. exists cp. split; [done|].
    rewrite !length_app, !length_take, length_drop. lia.
  - rewrite list_lookup_insert_ne in Ha by done. by exists c'.
Qed.

Lemma memcpy_to_slot_length dst src n (h h' : store) :
  memcpy_to_slot dst src n h = Some h' → length h' = length h.
Proof.
  unfold memcpy_to_slot. intros Hm.
  destruct (h !! dst.1) as [cp|]; simpl in Hm; [|done].
  case_decide; simplify_eq. by rewrite length_insert.
Qed.

Lemma allocate_new_chunk_data s s' a c' :
  allocate_new_chunk s = Some s' → heap s' !! a = Some c' →
  (∃ c, heap s !! a = Some c ∧ data c' = data c) ∨
  (chunk_free s = None ∧ a = length (heap s) ∧
   c' = zeroed_chunk (size_wrap (elem_size s * chunk_elem_max s))).
Proof.
  intros Hal Ha. destruct (chunk_free s) as [f|] eqn:Hf.
  - unfold allocate_new_chunk in Hal. rewrite Hf in Hal. simpl in Hal.
    destruct (heap s !! f) as [c|] eqn:Hc; simpl in Hal; [|done].
    destruct (store_next _ _ _) as [h|] eqn:Hs; simplify_eq/=.
    left. by eapply store_next_data.
  - apply (allocate_new_chunk_fresh_inv s s' Hf) in Hal as [_ ->]. simpl in *.
    destruct (decide (a < length (heap s))%nat) as [Hlt|Hge].
    + left. rewrite lookup_app_l in Ha by done. by exists c'.
    + right. split; [done|].
      rewrite lookup_app_r in Ha by lia.
      destruct (a - length (heap s))%nat as [|k] eqn:Hk; simplify_eq/=.
      split; [lia|done].
Qed.

Lemma chunks_sized_new es cs : chunks_sized (BLI_StackImpl_new es cs).
Proof. intros a c. by simpl. Qed.

Lemma chunks_sized_push_r s dst s' :
  chunks_sized s → push_r s = Some (dst, s') → chunks_sized s'.
Proof.
  intros Hsz Hp a c' Ha.
  pose proof (push_r_fields _ _ _ Hp) as (Hm & He & _ & _).
  unfold chunk_bytes. rewrite Hm, He.
  unfold push_r in Hp. case_decide.
  - destruct (allocate_new_chunk _) as [s1|] eqn:Hal; simpl in Hp; [|done].
    destruct (get_last_elem _); simplify_eq/=.
    destruct (allocate_new_chunk_data _ _ _ _ Hal Ha)
      as [(c & Hc & ->)|(_ & _ & ->)]; simpl in *.
    + by apply (Hsz a c).
    + by rewrite length_replicate.
  - simpl in Hp. destruct (get_last_elem _); simplify_eq/=. by apply (Hsz a c').
Qed.

Lemma chunks_sized_discard s s' :
  chunks_sized s → discard s = Some s' → chunks_sized s'.
Proof.
  intros Hsz Hd a c' Ha.
  pose proof (discard_fields _ _ Hd) as (Hm & He & _ & _).
  unfold chunk_bytes. rewrite Hm, He.
  unfold discard in Hd. simpl in Hd. case_decide.
  - destruct (chunk_curr s) as [old|]; simpl in Hd; [|done].
    destruct (heap s !! old) as [c|]; simpl in Hd; [|done].
    destruct (store_next _ _ _) as [h|] eqn:Hs; simplify_eq/=.
    destruct (store_next_data _ _ _ _ _ _ Hs Ha) as (c0 & Hc0 & ->).
    by apply (Hsz a c0).
  - simplify_eq/=. by apply (Hsz a c').
Qed.

Lemma chunks_sized_clear s s' :
  chunks_sized s → clear s = Some s' → chunks_sized s'.
Proof.
  intros Hsz Hcl a c' Ha.
  pose proof (clear_fields _ _ Hcl) as (Hm & He & _ & _).
  unfold chunk_bytes. rewrite Hm, He.
  unfold clear in Hcl. simpl in Hcl.
  destruct (chunk_free s) as [f|]; simpl in Hcl.
  - destruct (chunk_curr s) as [cu|]; simpl in Hcl.
    + destruct (last_chunk _ _ _); simpl in Hcl; [|done].
      destruct (store_next _ _ _) as [h|] eqn:Hs; simplify_eq/=.
      destruct (store_next_data _ _ _ _ _ _ Hs Ha) as (c0 & Hc0 & ->).
      by apply (Hsz a c0).
    + simplify_eq/=. by apply (Hsz a c').
  - simplify_eq/=. by apply (Hsz a c').
Qed.

Lemma reachable_chunks_sized s : reachable s → chunks_sized s.
Proof.
  apply reachable_invariant.
  - apply chunks_sized_new.
  - intros ? ? ? _. apply chunks_sized_push_r.
  - intros s0 i _ Hsz. exact Hsz.
  - intros s0 dst src h _ Hsz Hm a c' Ha. simpl in Ha.
    destruct (memcpy_to_slot_data_length _ _ _ _ _ _ _ Hm Ha) as (c & Hc & ->).
    by apply (Hsz a c).
  - intros ? ? _. apply chunks_sized_discard.
  - intros ? ? _. apply chunks_sized_clear.
Qed.

(** The lists never hold more than one chunk: a push that needs a chunk
    cuts the one it gets off from every other chunk. *)
Lemma lists_ok_allocate_new_chunk s s' lc lf :
  lists_ok s lc lf → allocate_new_chunk s = Some s' →
  ∃ p, chunk_curr s' = Some p ∧ lists_ok s' [p] (tail lf) ∧
       (length (heap s') ≤ S (length (heap s)))%nat ∧
       (lf ≠ [] → length (heap s') = length (heap s)).
Proof.
  intros (Hc & Hf & Hnd) Hal.
  destruct (chunk_free s) as [f|] eqn:Hfr.
  - destruct lf as [|a lf]; [done|]. destruct Hf as [[= <-] Hf].
    destruct (heap s !! f) as [c|] eqn:Hc'; [|done].
    rewrite (allocate_new_chunk_recycle s f c Hfr Hc') in Hal. simplify_eq.
    apply NoDup_app in Hnd as (_ & _ & Hnd). apply NoDup_cons in Hnd as [Hnotin Hnd].
    exists f. simpl. split; [done|]. rewrite length_insert.
    split; [|split; [lia|done]].
    unfold lists_ok; simpl. split_and!; try done.
    + rewrite list_lookup_insert_eq; [done|]. by eapply lookup_lt_Some.
    + by apply chunk_list_insert_other.
    + by apply NoDup_cons.
  - apply (allocate_new_chunk_fresh_inv s s' Hfr) in Hal as [_ ->].
    apply chunk_list_null in Hf as ->.
    exists (length (heap s)). simpl. split; [done|]. rewrite length_app. simpl.
    split; [|split; [lia|done]].
    unfold lists_ok; simpl. split_and!; try done.
    + by rewrite lookup_app_r, Nat.sub_diag.
    + apply NoDup_singleton.
Qed.


Lemma lists_ok_memcpy_to_slot s dst src n h lc lf :
  lists_ok s lc lf → memcpy_to_slot dst src n (heap s) = Some h →
  lists_ok (set_heap h s) lc lf.
Proof.
  intros (Hc & Hf & Hnd) Hm.
  pose proof (memcpy_to_slot_next _ _ _ _ _ Hm) as Hext.
  split_and!; [| |done].
  - exact (chunk_list_ext (heap s) h _ _ Hext Hc).
  - exact (chunk_list_ext (heap s) h _ _ Hext Hf).
Qed.


Lemma lists_ok_clear s s' lc lf :
  lists_ok s lc lf → clear s = Some s' → lists_ok s' [] (lf ++ lc).
Proof.
  intros Hok Hcl.
  destruct (clear_lists s lc lf Hok) as (s1 & Hs1 & Hcu & _ & _ & _ & _ & Hl & _).
  rewrite Hcl in Hs1. simplify_eq.
  unfold lists_ok. rewrite Hcu. split_and!; [done|done|].
  destruct Hok as (_ & _ & Hnd). simpl. by rewrite (Permutation_app_comm lf lc).
Qed.


(** ** Walking a list to delete it *)

Lemma clear_chunks_list (h : store) p l freed fuel :
  chunk_list h p l → NoDup (freed ++ l) → (length l ≤ fuel)%nat →
  clear_chunks fuel h freed p = Some (freed ++ l).
Proof.
  revert p freed fuel. induction l as [|a l IH]; intros p freed fuel Hl Hnd Hfuel.
  - simpl in Hl. subst p. destruct fuel; simpl; by rewrite app_nil_r.
  - destruct Hl as [-> Hl]. destruct fuel as [|fuel]; [simpl in Hfuel; lia|].
    simpl. destruct (h !! a) as [c|] eqn:Ha; [|done].
    pose proof Hnd as Hnd'. apply NoDup_app in Hnd as (Hfr & Hdisj & Hal).
    rewrite decide_False.
    + simpl. rewrite (IH (next c) (freed ++ [a]) fuel Hl).
      * by rewrite <- app_assoc.
      * by rewrite <- app_assoc.
      * simpl in Hfuel. lia.
    + intros Hin. apply (Hdisj a Hin). apply elem_of_cons. by left.
Qed.

Lemma lists_ok_length s lc lf :
  lists_ok s lc lf → (length lc + length lf ≤ length (heap s))%nat.
Proof.
  intros (Hc & Hf & Hnd). rewrite <- length_app.
  apply NoDup_bounded_length; [done|].
  intros a Ha. apply elem_of_app in Ha as [Ha|Ha].
  - exact (chunk_list_bound _ _ lc a Hc Ha).
  - exact (chunk_list_bound _ _ lf a Hf Ha).
Qed.

(** ** Copies into and out of a slot *)

Lemma memcpy_to_slot_Some (h : store) p off src n c :
  h !! p = Some c → 0 ≤ off → 0 ≤ n →
  off + n ≤ Z.of_nat (length (data c)) → n ≤ Z.of_nat (length src) →
  memcpy_to_slot (p, off) src n h =
    Some (<[p := {| next := next c;
                    data := take (Z.to_nat off) (data c)
                            ++ take (Z.to_nat n) src
                            ++ drop (Z.to_nat off + Z.to_nat n) (data c) |}]> h).
Proof.
  intros Hp Hoff Hn Hd Hs. unfold memcpy_to_slot. simpl. rewrite Hp. simpl.
  by rewrite decide_True.
Qed.

Lemma memcpy_from_slot_Some (h : store) p off n c :
  h !! p = Some c → 0 ≤ off → 0 ≤ n →
  off + n ≤ Z.of_nat (length (data c)) →
  memcpy_from_slot (p, off) n h
    = Some (take (Z.to_nat n) (drop (Z.to_nat off) (data c))).
Proof.
  intros Hp Hoff Hn Hd. unfold memcpy_from_slot. simpl. rewrite Hp. simpl.
  by rewrite decide_True.
Qed.

(** Reading back the bytes that were just written. *)
Lemma take_drop_written (d x : list byte) (off : nat) :
  (off + length x ≤ length d)%nat →
  take (length x) (drop off (take off d ++ x ++ drop (off + length x) d)) = x.
Proof.
  intros Hlen.
  rewrite drop_app_length' by (rewrite length_take; lia).
  by rewrite take_app_length.
Qed.

Lemma length_concat_uniform (l : list (list byte)) (n : nat) :
  Forall (λ x, length x = n) l → length (concat l) = (length l * n)%nat.
Proof.
  induction 1 as [|x l Hx _ IH]; [done|].
  simpl. rewrite length_app, IH, Hx. lia.
Qed.

(** ** A stack that never holds more than one chunk of elements *)

Section one_chunk.
Variables (es cap : Z).
Hypothesis Hes : 0 ≤ es.
Hypothesis Hcap : 1 ≤ cap ≤ SIZE_MAX.
Hypothesis Hbytes : es * cap ≤ SIZE_MAX.

Lemma holds_chunk_bytes s st :
  holds es cap s st → chunk_bytes s = (Z.to_nat cap * Z.to_nat es)%nat.
Proof using Hes Hcap Hbytes.
  intros (He & Hm & _). unfold chunk_bytes. rewrite He, Hm.
  rewrite size_wrap_small by (unfold is_size_t; nia).
  rewrite Z2Nat.inj_mul by lia. lia.
Qed.

Lemma holds_new : holds es cap (BLI_StackImpl_new es cap) [].
Proof using Hcap.
  unfold holds. simpl. split_and!; try done.
  - lia.
  - lia.
  - size_lia.
  - exists []. split; [|done]. unfold lists_ok. simpl.
    split_and!; [done|done|constructor].
Qed.

(** The state after [push_r] and the copy of [x] into the slot at
    element index [i] of the current chunk. *)
Lemma holds_after_copy s1 st x p c :
  elem_size s1 = es → chunk_elem_max s1 = cap →
  elem_num s1 = Z.of_nat (S (length st)) →
  Forall (λ y, length y = Z.to_nat es) st →
  length x = Z.to_nat es →
  Z.of_nat (length st) < cap →
  chunks_sized s1 → (length (heap s1) ≤ 1)%nat →
  lists_ok s1 [p] [] → heap s1 !! p = Some c →
  chunk_index s1 = Z.of_nat (length st) →
  take (length st * Z.to_nat es) (data c) = concat (reverse st) →
  ∃ h, memcpy_to_slot (p, size_wrap (es * Z.of_nat (length st))) x es (heap s1)
         = Some h ∧
       holds es cap (set_heap h s1) (x :: st).
Proof using Hes Hcap Hbytes.
  intros He Hm Hn Hall Hx Hlt Hsz Hheap Hok Hp Hi Hd.
  assert (length (data c) = (Z.to_nat cap * Z.to_nat es)%nat) as Hlen.
  { rewrite (Hsz p c Hp). unfold chunk_bytes. rewrite He, Hm.
    rewrite size_wrap_small by (unfold is_size_t; nia).
    rewrite Z2Nat.inj_mul by lia. lia. }
  assert (size_wrap (es * Z.of_nat (length st)) = es * Z.of_nat (length st))
    as Hoff by (apply size_wrap_small; unfold is_size_t; nia).
  assert (Z.to_nat (es * Z.of_nat (length st)) = (length st * Z.to_nat es)%nat)
    as Hoffn by (rewrite Z2Nat.inj_mul by lia; rewrite Nat2Z.id; lia).
  rewrite Hoff.
  rewrite (memcpy_to_slot_Some _ _ _ _ _ c Hp); [|nia|lia|nia|lia].
  eexists. split; [done|].
  set (h := <[p := _]> (heap s1)).
  assert (memcpy_to_slot (p, es * Z.of_nat (length st)) x es (heap s1) = Some h)
    as Hmem by (rewrite (memcpy_to_slot_Some _ _ _ _ _ c Hp); [done|nia|lia|nia|lia]).
  unfold holds. simpl. split_and!; try done.
  - lia.
  - by apply Forall_cons.
  - intros a c' Ha.
    destruct (memcpy_to_slot_data_length _ _ _ _ _ _ _ Hmem Ha) as (c0 & Hc0 & ->).
    by apply (Hsz a c0).
  - unfold h. by rewrite length_insert.
  - eexists p, _. split_and!.
    + by eapply lists_ok_memcpy_to_slot.
    + unfold h. apply list_lookup_insert_eq. by eapply lookup_lt_Some.
    + lia.
    + simpl. rewrite Hoffn, reverse_cons, concat_app. simpl.
      rewrite app_nil_r, <- Hd.
      rewrite (take_ge x) by lia. rewrite app_assoc.
      apply take_app_length'.
      rewrite length_app, length_take. nia.
Qed.


(** A push on a stack that holds [st]: when the stack is empty the push
    takes a chunk, and returns if [allocate_new_chunk] does. *)
Lemma holds_push_from s st x :
  holds es cap s st → length x = Z.to_nat es → Z.of_nat (length st) < cap →
  (st = [] →
   is_Some (allocate_new_chunk (set_chunk_index (chunk_elem_max s) s))) →
  ∃ s', push x s = Some s' ∧ holds es cap s' (x :: st).
Proof using Hes Hcap Hbytes.
  intros (He & Hm & Hn & _ & Hall & Hsz & Hheap & Hst) Hx Hlt Halloc.
  destruct st as [|y st0].
  - (* the stack is empty: the push takes a chunk *)
    destruct Hst as (Hi & lf & Hok & Hlf).
    assert (size_wrap (chunk_index s + 1) = chunk_elem_max s) as Htrig
      by (rewrite Hi, Hm; size_lia).
    destruct (Halloc eq_refl) as [s1 Hal].
    destruct (push_r_new_chunk_defined s s1 Htrig Hal)
      as (p & c & Hcu & Hp & Hnx & Hpush).
    destruct (lists_ok_allocate_new_chunk
                (set_chunk_index (chunk_elem_max s) s) s1 [] lf Hok Hal)
      as (p' & Hcu' & Hok1 & Hle & Hsame).
    rewrite Hcu in Hcu'. injection Hcu' as <-.
    assert (tail lf = []) as Htl by (destruct lf as [|? [|? ?]]; simpl in *; [done|done|lia]).
    rewrite Htl in Hok1.
    pose proof (allocate_new_chunk_fields _ _ Hal) as (_ & Hm1 & He1 & Hn1).
    simpl in Hm1, He1, Hn1.
    set (s2 := set_elem_num (size_wrap (elem_num s + 1)) (set_chunk_index 0 s1)) in *.
    destruct (holds_after_copy s2 [] x p c) as (h & Hmem & Hh); simpl; try done.
    + congruence.
    + congruence.
    + change (size_wrap (elem_num s + 1) = Z.of_nat 1). rewrite Hn. simpl. size_lia.
    + by eapply chunks_sized_push_r.
    + destruct lf as [|f lf']; simpl in *.
      * lia.
      * rewrite Hsame by done. done.
    + exists (set_heap h s2). split; [|done].
      unfold push. rewrite Hpush. simpl. fold s2.
      replace (elem_size s * 0) with (es * Z.of_nat 0) by (simpl; lia).
      rewrite He1, He. simpl in Hmem. by rewrite Hmem.
  - (* the current chunk has room *)
    destruct Hst as (p & c & Hok & Hp & Hi & Hd).
    assert (size_wrap (chunk_index s + 1) = Z.of_nat (length (y :: st0))) as Hw
      by (rewrite Hi; size_lia).
    set (s2 := set_elem_num (size_wrap (elem_num s + 1))
                 (set_chunk_index (size_wrap (chunk_index s + 1)) s)).
    assert (chunk_curr s = Some p) as Hcu by (by destruct Hok as ((? & _) & _)).
    assert (push_r s = Some ((p, size_wrap (es * Z.of_nat (length (y :: st0)))), s2))
      as Hpush.
    { unfold push_r. simpl. rewrite decide_False by (rewrite Hw, Hm; simpl in *; lia).
      simpl. unfold get_last_elem. simpl. rewrite Hcu. simpl. rewrite Hp. simpl.
      rewrite He. by rewrite Hw at 1. }
    destruct (holds_after_copy s2 (y :: st0) x p c) as (h & Hmem & Hh); try done.
    + change (elem_num s2) with (size_wrap (elem_num s + 1)).
      rewrite Hn, Nat2Z.inj_succ. size_lia.
    + exists (set_heap h s2). split; [|done].
      unfold push. rewrite Hpush. simpl. rewrite He. simpl in Hmem. by rewrite Hmem.
Qed.

Lemma holds_top_bytes st x (d : list byte) :
  Forall (λ y, length y = Z.to_nat es) (x :: st) →
  take (length (x :: st) * Z.to_nat es) d = concat (reverse (x :: st)) →
  take (Z.to_nat es) (drop (length st * Z.to_nat es) d) = x ∧
  take (length st * Z.to_nat es) d = concat (reverse st) ∧
  (length (x :: st) * Z.to_nat es ≤ length d)%nat.
Proof.
  intros Hall Hd. apply Forall_cons in Hall as [Hx Hall].
  assert (length (concat (reverse st)) = (length st * Z.to_nat es)%nat) as Hlen.
  { rewrite (length_concat_uniform _ (Z.to_nat es)) by (by apply Forall_reverse).
    by rewrite length_reverse. }
  rewrite reverse_cons, concat_app in Hd. simpl in Hd. rewrite app_nil_r in Hd.
  split_and!.
  - rewrite take_drop_commute. rewrite Nat.add_comm, Hd.
    by rewrite drop_app_length'.
  - rewrite <- (take_app_length' (concat (reverse st)) x (length st * Z.to_nat es))
      by done.
    rewrite <- Hd, take_take. f_equal. lia.
  - apply (f_equal length) in Hd.
    rewrite length_take, length_app, Hlen, Hx in Hd. simpl. lia.
Qed.

(** A stack that holds an element owns exactly one chunk. *)
Lemma holds_one_chunk s x st :
  holds es cap s (x :: st) → length (heap s) = 1%nat.
Proof.
  intros (_ & _ & _ & _ & _ & _ & Hheap & p & c & _ & Hp & _).
  apply lookup_lt_Some in Hp. lia.
Qed.

Lemma holds_pop s x st :
  holds es cap s (x :: st) →
  ∃ s', pop s = Some (x, s') ∧ discard s = Some s' ∧ holds es cap s' st ∧
        length (heap s') = 1%nat.
Proof using Hes Hcap Hbytes.
  intros (He & Hm & Hn & Hle & Hall & Hsz & Hheap & p & c & Hok & Hp & Hi & Hd).
  destruct (holds_top_bytes st x (data c) Hall Hd) as (Htop & Hrest & Hfit).
  pose proof Hok as ((Hcu & Hnx) & Hfr & _). simpl in Hfr.
  rewrite Hp in Hnx. simpl in Hnx.
  assert (is_size_t (es * Z.of_nat (length st))) as Hoff.
  { simpl length in Hle. unfold is_size_t. nia. }
  assert (∃ s', discard s = Some s' ∧ holds es cap s' st ∧
                length (heap s') = 1%nat) as (s' & Hdis & Hh & Hone').
  { apply Forall_cons in Hall as [Hx Hall]. destruct st as [|y st0].
    - (* the last element: the chunk goes to the free list *)
      assert (size_wrap (chunk_index s - 1) = SIZE_MAX) as Hu
        by (rewrite Hi; simpl; done).
      pose proof (discard_underflow s p c Hu Hcu Hp) as Hdis.
      match type of Hdis with _ = Some ?t => set (s' := t) in * end.
      exists s'. split; [done|].
      destruct (lists_ok_discard_underflow s p c [p] [] Hok Hcu Hp) as [_ Hok'].
      assert (length (heap s') = 1%nat) as Hone.
      { unfold s'. simpl. rewrite length_insert.
        apply lookup_lt_Some in Hp. lia. }
      split; [|exact Hone].
      unfold holds. split_and!.
      + done.
      + done.
      + unfold s'. simpl elem_num. rewrite Hn. done.
      + simpl. lia.
      + done.
      + by eapply chunks_sized_discard.
      + lia.
      + unfold s'. simpl chunk_index. rewrite Hm. size_lia.
      + exists [p]. split; [apply Hok'|]. by rewrite Hone.
    - (* the cursor steps back inside the chunk *)
      assert (size_wrap (chunk_index s - 1) = Z.of_nat (length (y :: st0)) - 1)
        as Hw by (rewrite Hi; simpl length in *; size_lia).
      rewrite discard_keep by (rewrite Hw; simpl length in *; size_lia).
      eexists. split; [done|].
      split; [|simpl; apply lookup_lt_Some in Hp; lia].
      unfold holds. simpl elem_size. simpl chunk_elem_max. simpl elem_num.
      simpl heap. simpl chunk_index.
      split_and!; try done.
      + rewrite Hn. simpl length in *. size_lia.
      + simpl length in *. lia.
      + exists p, c. split_and!; try done. }
  exists s'. split; [|done].
  unfold pop, get_last_elem. rewrite Hcu. simpl. rewrite Hp. simpl.
  rewrite He, Hi.
  replace (Z.of_nat (length (x :: st)) - 1) with (Z.of_nat (length st))
    by (simpl length; lia).
  rewrite (size_wrap_small _ Hoff).
  rewrite (memcpy_from_slot_Some _ _ _ _ c Hp); [|nia|lia|].
  - simpl. rewrite Hdis. simpl.
    rewrite Z2Nat.inj_mul, Nat2Z.id by lia.
    rewrite (Nat.mul_comm (Z.to_nat es)). by rewrite Htop.
  - simpl length in Hfit. nia.
Qed.

Lemma holds_clear s st :
  holds es cap s st →
  ∃ s', clear s = Some s' ∧ holds es cap s' [] ∧
        length (heap s') = length (heap s).
Proof using Hes Hcap Hbytes.
  intros (He & Hm & Hn & Hle & Hall & Hsz & Hheap & Hst).
  assert (∃ lc lf, lists_ok s lc lf ∧ length (lf ++ lc) = length (heap s))
    as (lc & lf & Hok & Hlen).
  { destruct st as [|y st0].
    - destruct Hst as (_ & lf & Hok & Hlf). exists [], lf.
      by rewrite app_nil_r.
    - destruct Hst as (p & c & Hok & Hp & _). exists [p], [].
      split; [done|]. simpl. apply lookup_lt_Some in Hp. lia. }
  destruct (clear_lists s lc lf Hok)
    as (s' & Hcl & Hcu & Hi & Hn' & Hm' & He' & _ & Hlen' & _).
  exists s'. split; [done|]. split; [|done].
  unfold holds. split_and!; try done.
  - congruence.
  - congruence.
  - simpl. lia.
  - by eapply chunks_sized_clear.
  - lia.
  - rewrite Hi, Hm. size_lia.
  - exists (lf ++ lc). split; [by eapply lists_ok_clear|]. lia.
Qed.


(** On a stack that owns its chunk a push allocates nothing. *)
Lemma holds_push s st x :
  holds es cap s st → length (heap s) = 1%nat →
  length x = Z.to_nat es → Z.of_nat (length st) < cap →
  ∃ s', push x s = Some s' ∧ holds es cap s' (x :: st).
Proof using Hes Hcap Hbytes.
  intros Hh Hone Hx Hlt. apply holds_push_from; try done.
  intros ->. destruct Hh as (_ & _ & _ & _ & _ & _ & _ & _ & lf & Hok & Hlf).
  destruct lf as [|f lf]; [simpl in Hlf; lia|].
  destruct Hok as (_ & (Hfr & Hf) & _).
  apply (allocate_new_chunk_recycle_defined _ f); [exact Hfr|].
  simpl. by destruct (heap s !! f).
Qed.

(** The first push on the new stack, when it returns. *)
Lemma holds_first_push x s1 :
  length x = Z.to_nat es →
  push x (BLI_StackImpl_new es cap) = Some s1 →
  holds es cap s1 [x].
Proof using Hes Hcap Hbytes.
  intros Hx Hp.
  destruct (holds_push_from (BLI_StackImpl_new es cap) [] x holds_new Hx)
    as (s' & Hp' & Hh); [simpl; lia| |congruence].
  intros _. unfold push in Hp.
  destruct (push_r (BLI_StackImpl_new es cap)) as [[dst s0]|] eqn:Hr;
    simpl in Hp; [|done].
  assert (size_wrap (chunk_index (BLI_StackImpl_new es cap) + 1)
          = chunk_elem_max (BLI_StackImpl_new es cap)) as Htrig
    by (simpl; size_lia).
  destruct (push_r_new_chunk _ dst s0 Htrig Hr) as (s2 & _ & _ & Hal & _).
  by eexists.
Qed.

Lemma run_ops_within_chunk ops :
  ∀ s st,
    holds es cap s st → length (heap s) = 1%nat →
    stays_within es cap ops (length st) = true →
    ∃ outs st' s',
      lifo_ops ops st = Some (outs, st') ∧
      run_ops ops s = Some (outs, s') ∧
      holds es cap s' st' ∧ length (heap s') = 1%nat.
Proof using Hes Hcap Hbytes.
  induction ops as [|op ops IH]; intros s st Hh Hone Hw.
  - by exists [], st, s.
  - destruct op as [src| | |]; simpl in Hw.
    + apply andb_prop in Hw as [Hw Hrest]. apply andb_prop in Hw as [Hlen Hroom].
      apply bool_decide_eq_true in Hlen, Hroom.
      destruct (holds_push s st src Hh Hone) as (s1 & Hp & Hh1); [lia|done|].
      destruct (IH s1 (src :: st) Hh1 (holds_one_chunk _ _ _ Hh1) Hrest)
        as (outs & st' & s' & Hl & Hr & Hh').
      exists outs, st', s'. simpl. rewrite Hp, Hl. simpl. by rewrite Hr.
    + destruct st as [|x st]; [done|]. simpl in Hw.
      destruct (holds_pop s x st Hh) as (s1 & Hp & _ & Hh1 & Hone1).
      destruct (IH s1 st Hh1 Hone1 Hw) as (outs & st' & s' & Hl & Hr & Hh').
      exists (x :: outs), st', s'. simpl. rewrite Hp, Hl. simpl. by rewrite Hr.
    + destruct st as [|x st]; [done|]. simpl in Hw.
      destruct (holds_pop s x st Hh) as (s1 & _ & Hd & Hh1 & Hone1).
      destruct (IH s1 st Hh1 Hone1 Hw) as (outs & st' & s' & Hl & Hr & Hh').
      exists outs, st', s'. simpl. rewrite Hd, Hl. simpl. by rewrite Hr.
    + destruct (holds_clear s st Hh) as (s1 & Hc & Hh1 & Hlen1).
      destruct (IH s1 [] Hh1 ltac:(lia) Hw) as (outs & st' & s' & Hl & Hr & Hh').
      exists outs, st', s'. simpl. rewrite Hc. simpl. rewrite Hr.
      split; [|done]. destruct st; simpl; by rewrite Hl.
Qed.
End one_chunk.

(** X1. Once the first push on a new stack has returned (its chunk was
    allocated), the stack is a LIFO stack for as long as it holds no more
    than [cap] elements: every further sequence of pushes (of [es] bytes
    each), pops, discards and clears that stays within that bound and removes
    nothing from the empty stack is defined, its pops return exactly what
    a LIFO stack returns, and the count is the number of elements the LIFO
    stack holds. *)
Theorem lifo_within_one_chunk (es cap : Z) (src : list byte)
    (ops : list stack_op) (s1 : BLI_StackImpl) :
  0 ≤ es → 1 ≤ cap ≤ SIZE_MAX → es * cap ≤ SIZE_MAX →
  stays_within es cap (OpPush src :: ops) 0 = true →
  push src (BLI_StackImpl_new es cap) = Some s1 →
  ∃ outs st s,
    lifo_ops (OpPush src :: ops) [] = Some (outs, st) ∧
    run_ops ops s1 = Some (outs, s) ∧
    run_ops (OpPush src :: ops) (BLI_StackImpl_new es cap) = Some (outs, s) ∧
    count s = Z.of_nat (length st) ∧
    is_empty s = bool_decide (st = []).
Proof.
  intros Hes Hcap Hbytes Hw Hp. simpl in Hw.
  apply andb_prop in Hw as [Hw Hrest]. apply andb_prop in Hw as [Hlen _].
  apply bool_decide_eq_true in Hlen.
  assert (holds es cap s1 [src]) as Hh
    by (apply (holds_first_push es cap Hes Hcap Hbytes); [lia|done]).
  destruct (run_ops_within_chunk es cap Hes Hcap Hbytes ops s1 [src] Hh
              (holds_one_chunk es cap _ _ _ Hh) Hrest)
    as (outs & st & s & Hl & Hr & Hh' & _).
  exists outs, st, s.
  split; [simpl; by rewrite Hl|]. split; [done|].
  split; [simpl; rewrite Hp; simpl; by rewrite Hr|].
  destruct Hh' as (_ & _ & Hn & _). unfold count, is_empty. rewrite Hn.
  split; [done|]. by destruct st.
Qed.

Lemma lifo_within_one_chunk_witness :
  ∃ s, run_ops [OpPush [x01]; OpPush [x02]; OpPop; OpClear; OpPush [x03];
                OpPush [x04]; OpPush [x05]; OpPush [x06]; OpPop; OpDiscard; OpPop]
         (BLI_StackImpl_new 1 4) = Some ([[x02]; [x06]; [x04]], s) ∧
       count s = 1.
Proof.
  destruct (push [x01] (BLI_StackImpl_new 1 4)) as [s1|] eqn:Hp;
    [|vm_compute in Hp; discriminate].
  destruct (lifo_within_one_chunk 1 4 [x01]
              [OpPush [x02]; OpPop; OpClear; OpPush [x03];
               OpPush [x04]; OpPush [x05]; OpPush [x06]; OpPop; OpDiscard; OpPop]
              s1)
    as (outs & st & s & Hl & _ & Hr & Hc & _).
  - lia.
  - by vm_compute.
  - by vm_compute.
  - vm_compute. reflexivity.
  - exact Hp.
  - exists s. vm_compute in Hl.
    assert (outs = [[x02]; [x06]; [x04]]) as <- by congruence.
    assert (st = [[x03]]) as -> by congruence.
    split; [exact Hr|exact Hc].
Defined.

(** X2. After that first push the stack never allocates again: whatever
    sequence of pushes, pops, discards and clears follows within the bound
    of [cap] elements, the store holds exactly the one chunk, which is on the
    active or on the free list; every refill takes the emptied chunk
    back. *)
Theorem one_chunk_is_recycled (es cap : Z) (src : list byte)
    (ops : list stack_op) (s1 : BLI_StackImpl) :
  0 ≤ es → 1 ≤ cap ≤ SIZE_MAX → es * cap ≤ SIZE_MAX →
  stays_within es cap (OpPush src :: ops) 0 = true →
  push src (BLI_StackImpl_new es cap) = Some s1 →
  ∃ outs s,
    run_ops ops s1 = Some (outs, s) ∧
    length (heap s1) = 1%nat ∧
    length (heap s) = 1%nat ∧
    ∃ lc lf, lists_ok s lc lf ∧ (length lc + length lf)%nat = 1%nat.
Proof.
  intros Hes Hcap Hbytes Hw Hp. simpl in Hw.
  apply andb_prop in Hw as [Hw Hrest]. apply andb_prop in Hw as [Hlen _].
  apply bool_decide_eq_true in Hlen.
  assert (holds es cap s1 [src]) as Hh
    by (apply (holds_first_push es cap Hes Hcap Hbytes); [lia|done]).
  pose proof (holds_one_chunk es cap _ _ _ Hh) as Hone1.
  destruct (run_ops_within_chunk es cap Hes Hcap Hbytes ops s1 [src] Hh Hone1 Hrest)
    as (outs & st & s & _ & Hr & Hh' & Hone).
  exists outs, s. do 3 (split; [done|]).
  destruct Hh' as (_ & _ & _ & _ & _ & _ & _ & Hst).
  destruct st as [|x st].
  - destruct Hst as (_ & lf & Hok & Hlf). exists [], lf. split; [done|].
    simpl. lia.
  - destruct Hst as (p & c & Hok & _). by exists [p], [].
Qed.

Lemma one_chunk_is_recycled_witness :
  ∃ outs s1 s,
    push [x01] (BLI_StackImpl_new 1 2) = Some s1 ∧
    run_ops [OpPush [x02]; OpClear; OpPush [x03]; OpPush [x04];
             OpPop; OpPop; OpPush [x05]] s1 = Some (outs, s) ∧
    length (heap s) = 1%nat.
Proof.
  destruct (push [x01] (BLI_StackImpl_new 1 2)) as [s1|] eqn:Hp;
    [|vm_compute in Hp; discriminate].
  destruct (one_chunk_is_recycled 1 2 [x01]
              [OpPush [x02]; OpClear; OpPush [x03]; OpPush [x04];
               OpPop; OpPop; OpPush [x05]] s1)
    as (outs & s & Hr & _ & Hlen & _).
  - lia.
  - by vm_compute.
  - by vm_compute.
  - vm_compute. reflexivity.
  - exact Hp.
  - exists outs, s1, s. exact (conj eq_refl (conj Hr Hlen)).
Defined.

(** ** A push and the pop that follows it *)

Lemma reachable_elem_num_size_t s : reachable s → is_size_t (elem_num s).
Proof.
  revert s. apply (reachable_invariant (λ s, is_size_t (elem_num s))).
  - intros es cs. simpl. unfold is_size_t, SIZE_MAX. lia.
  - intros s0 dst s' _ _ Hp. apply push_r_fields in Hp as (_ & _ & -> & _).
    apply size_wrap_range.
  - intros s0 i _ IH. exact IH.
  - intros s0 dst src h _ IH _. exact IH.
  - intros s0 s' _ _ Hd. apply discard_fields in Hd as (_ & _ & -> & _).
    apply size_wrap_range.
  - intros s0 s' _ _ Hc. apply clear_fields in Hc as (_ & _ & -> & _).
    unfold is_size_t, SIZE_MAX. lia.
Qed.

(** Where [push_r] puts the new element, in a state whose chunks have room
    for [chunk_elem_max] elements. *)
Lemma peek_value_at s p c :
  chunk_curr s = Some p → heap s !! p = Some c →
  0 ≤ elem_size s →
  0 ≤ size_wrap (elem_size s * chunk_index s) →
  size_wrap (elem_size s * chunk_index s) + elem_size s
    ≤ Z.of_nat (length (data c)) →
  peek_value s =
    Some (take (Z.to_nat (elem_size s))
            (drop (Z.to_nat (size_wrap (elem_size s * chunk_index s))) (data c))).
Proof.
  intros Hcu Hp Hes Hoff Hfit.
  unfold peek_value, peek, get_last_elem. rewrite Hcu. simpl. rewrite Hp. simpl.
  by rewrite (memcpy_from_slot_Some _ _ _ _ c Hp).
Qed.

(** The slot [push_r] returns is the slot of the top element. *)
Lemma push_r_get_last_elem s dst s' :
  push_r s = Some (dst, s') →
  get_last_elem s' = Some dst ∧
  ∃ c, chunk_curr s' = Some dst.1 ∧ heap s' !! dst.1 = Some c ∧
       dst.2 = size_wrap (elem_size s' * chunk_index s').
Proof.
  unfold push_r. intros Hp.
  destruct (if decide _ then _ else _) as [s2|]; simpl in Hp; [|done].
  destruct (get_last_elem _) as [d|] eqn:Hg; simplify_eq/=.
  split; [done|]. unfold get_last_elem in Hg.
  destruct (chunk_curr _) as [p|] eqn:Hcu; simpl in Hg; [|done].
  destruct (heap _ !! p) as [c|] eqn:Hc; simplify_eq/=.
  exists c. by split_and!.
Qed.

(** X3. Whenever a push returns, [peek] points at exactly the first
    [elem_size] bytes of the source, the pop that follows is defined and
    returns them, and that pop puts the count and the cursor back to what
    they were before the push. *)
Theorem push_then_pop_round_trip (s s1 : BLI_StackImpl) (src : list byte) :
  push src s = Some s1 →
  is_size_t (elem_num s) →
  0 ≤ chunk_index s < SIZE_MAX →
  count s1 = size_wrap (count s + 1) ∧
  peek_value s1 = Some (take (Z.to_nat (elem_size s)) src) ∧
  ∃ s2, pop s1 = Some (take (Z.to_nat (elem_size s)) src, s2) ∧
        count s2 = count s ∧
        chunk_index s2 = chunk_index s.
Proof.
  intros Hpush Hnum Hidx. unfold push in Hpush.
  destruct (push_r s) as [[[p off] s0]|] eqn:Hr; simpl in Hpush; [|done].
  destruct (memcpy_to_slot _ _ _ _) as [h|] eqn:Hm; simplify_eq/=.
  destruct (push_r_get_last_elem _ _ _ Hr) as (_ & c & Hcu & Hp & Hoff).
  simpl in Hcu, Hp, Hoff.
  unfold memcpy_to_slot in Hm. simpl in Hm. rewrite Hp in Hm. simpl in Hm.
  case_decide as Hb; [|done]. destruct Hb as (Hoff0 & Hn0 & Hfit & Hsrc).
  injection Hm as <-.
  pose proof (push_r_fields _ _ _ Hr) as (Hmax & He & Hn & Hi).
  set (es := Z.to_nat (elem_size s0)) in *.
  set (o := Z.to_nat off) in *.
  set (x := take es src).
  assert (length x = es) as Hx by (unfold x, es; rewrite length_take; lia).
  assert (o + es ≤ length (data c))%nat as Hfit' by (unfold o, es; lia).
  set (c' := {| next := next c;
                data := take o (data c) ++ x ++ drop (o + es) (data c) |}).
  set (s1 := set_heap (<[p := c']> (heap s0)) s0).
  assert (heap s1 !! p = Some c') as Hp'.
  { unfold s1. simpl. apply list_lookup_insert_eq. by eapply lookup_lt_Some. }
  assert (peek_value s1 = Some x) as Hpeek.
  { rewrite (peek_value_at s1 p c'); try done.
    - change (elem_size s1) with (elem_size s0).
      change (chunk_index s1) with (chunk_index s0). rewrite <- Hoff.
      f_equal. fold es o. unfold c'. simpl.
      pose proof (take_drop_written (data c) x o) as Hw.
      rewrite Hx in Hw. by apply Hw.
    - change (elem_size s1) with (elem_size s0).
      change (chunk_index s1) with (chunk_index s0). by rewrite <- Hoff.
    - change (elem_size s1) with (elem_size s0).
      change (chunk_index s1) with (chunk_index s0). rewrite <- Hoff.
      unfold c'. simpl. rewrite !length_app, length_take, length_drop. lia. }
  assert (is_Some (discard s1)) as [s2 Hdis].
  { apply discard_defined. exists c'. unfold head_chunk.
    change (chunk_curr s1) with (chunk_curr s0). rewrite Hcu. exact Hp'. }
  pose proof (discard_fields _ _ Hdis) as (_ & _ & Hn2 & Hi2).
  change (elem_num s1) with (elem_num s0) in Hn2.
  change (chunk_index s1) with (chunk_index s0) in Hi2.
  change (chunk_elem_max s1) with (chunk_elem_max s0) in Hi2.
  unfold count. rewrite <- He. fold es. fold x.
  split; [exact Hn|]. split; [exact Hpeek|].
  exists s2. split_and!.
  - rewrite pop_unfold. unfold pop_via_peek_discard. by rewrite Hpeek, Hdis.
  - rewrite Hn2, Hn. size_lia.
  - rewrite Hi2, Hi, Hmax. repeat case_decide; size_lia.
Qed.

Lemma push_then_pop_round_trip_witness :
  ∃ s1 s2, push [x07] (BLI_StackImpl_new 1 4) = Some s1 ∧
           pop s1 = Some ([x07], s2) ∧ count s2 = 0.
Proof.
  destruct (push [x07] (BLI_StackImpl_new 1 4)) as [s1|] eqn:Hp;
    [|vm_compute in Hp; discriminate].
  destruct (push_then_pop_round_trip (BLI_StackImpl_new 1 4) s1 [x07] Hp)
    as (_ & _ & s2 & Hpop & Hc & _).
  - by vm_compute.
  - by vm_compute.
  - exists s1, s2. exact (conj eq_refl (conj Hpop Hc)).
Defined.

(** ** The cursor *)

Lemma push_r_cursor s dst s' :
  1 ≤ chunk_elem_max s ≤ SIZE_MAX →
  0 ≤ chunk_index s < chunk_elem_max s →
  push_r s = Some (dst, s') →
  0 ≤ chunk_index s' < chunk_elem_max s'.
Proof.
  intros Hcap Hidx Hp.
  apply push_r_fields in Hp as (-> & _ & _ & ->). case_decide; size_lia.
Qed.

Lemma discard_cursor s s' :
  1 ≤ chunk_elem_max s ≤ SIZE_MAX →
  0 ≤ chunk_index s < chunk_elem_max s →
  discard s = Some s' →
  0 ≤ chunk_index s' < chunk_elem_max s'.
Proof.
  intros Hcap Hidx Hd.
  apply discard_fields in Hd as (-> & _ & _ & ->). case_decide; size_lia.
Qed.

(** X4. For a stack built for at least one element a chunk, the cursor
    of the new stack is a valid element index,
    [0 <= chunk_index < chunk_elem_max], and every call that returns keeps it
    one.  A push that exits through a failed chunk allocation does not: it
    leaves [chunk_index = chunk_elem_max]. *)
Theorem cursor_stays_inside_chunk (s : BLI_StackImpl) :
  1 ≤ chunk_elem_max s ≤ SIZE_MAX →
  0 ≤ chunk_index s < chunk_elem_max s →
  0 ≤ chunk_index (BLI_StackImpl_new (elem_size s) (chunk_elem_max s))
    < chunk_elem_max s ∧
  (∀ dst s', push_r s = Some (dst, s') →
     0 ≤ chunk_index s' < chunk_elem_max s') ∧
  (∀ src s', push src s = Some s' →
     0 ≤ chunk_index s' < chunk_elem_max s') ∧
  (∀ dst s', pop s = Some (dst, s') →
     0 ≤ chunk_index s' < chunk_elem_max s') ∧
  (∀ s', discard s = Some s' →
     0 ≤ chunk_index s' < chunk_elem_max s') ∧
  (∀ s', clear s = Some s' →
     0 ≤ chunk_index s' < chunk_elem_max s') ∧
  (∀ s', push_r_throws s = Some s' →
     chunk_index s' = chunk_elem_max s' ∧
     chunk_index s = chunk_elem_max s - 1 ∧
     chunk_free s = None).
Proof.
  intros Hcap Hidx. split_and!.
  - simpl. size_lia.
  - simpl. size_lia.
  - intros dst s'. by apply push_r_cursor.
  - intros src s' Hp. unfold push in Hp.
    destruct (push_r s) as [[dst s1]|] eqn:Hr; simpl in Hp; [|done].
    destruct (memcpy_to_slot _ _ _ _) as [h|]; simplify_eq/=.
    by apply (push_r_cursor s dst s1).
  - intros dst s' Hp. unfold pop in Hp.
    destruct (get_last_elem s); simpl in Hp; [|done].
    destruct (memcpy_from_slot _ _ _); simpl in Hp; [|done].
    destruct (discard s) as [s1|] eqn:Hd; simplify_eq/=.
    by apply (discard_cursor s s').
  - intros s'. by apply discard_cursor.
  - intros s' Hc. apply clear_fields in Hc as (-> & _ & _ & -> & _). size_lia.
  - intros s' Ht. apply push_r_throws_state in Ht as (-> & Htrig & Hfr).
    simpl. split_and!; [done|size_lia|done].
Qed.

Lemma cursor_stays_inside_chunk_witness :
  (∃ s', push [x01; x02; x03; x04] (BLI_StackImpl_new 4 4) = Some s' ∧
         0 ≤ chunk_index s' < 4) ∧
  (∃ s', push_r_throws (BLI_StackImpl_new 4 4) = Some s' ∧ chunk_index s' = 4).
Proof.
  destruct (cursor_stays_inside_chunk (BLI_StackImpl_new 4 4))
    as (_ & _ & Hpush & _ & _ & _ & Hthrow).
  - by vm_compute.
  - by vm_compute.
  - split.
    + destruct (push [x01; x02; x03; x04] (BLI_StackImpl_new 4 4)) as [s'|] eqn:Hp;
        [|vm_compute in Hp; discriminate].
      exists s'. split; [reflexivity|].
      pose proof (Hpush [x01; x02; x03; x04] s') as Hi. rewrite Hp in Hi.
      specialize (Hi eq_refl).
      replace (chunk_elem_max s') with 4 in Hi; [exact Hi|].
      vm_compute in Hp. injection Hp as <-. reflexivity.
    + destruct (push_r_throws (BLI_StackImpl_new 4 4)) as [s'|] eqn:Ht;
        [|vm_compute in Ht; discriminate].
      exists s'. split; [reflexivity|].
      destruct (Hthrow s' eq_refl) as (Hi & _). rewrite Hi.
      vm_compute in Ht. injection Ht as <-. reflexivity.
Defined.

(** ** What holds in every reachable state *)

(** X5. Chunks are never resized: in every reachable state each chunk of
    the store, linked or not, has exactly the
    [elem_size * chunk_elem_max] bytes (in [size_t] arithmetic) it was
    allocated with. *)
Theorem chunks_keep_their_size (s : BLI_StackImpl) (a : nat) (c : StackChunk) :
  reachable s →
  heap s !! a = Some c →
  length (data c) = Z.to_nat (size_wrap (elem_size s * chunk_elem_max s)).
Proof. intros Hs Ha. exact (reachable_chunks_sized s Hs a c Ha). Qed.

Lemma chunks_keep_their_size_witness :
  ∃ s1 c, push [x01] (BLI_StackImpl_new 1 4) = Some s1 ∧
          heap s1 !! 0%nat = Some c ∧
          length (data c) = 4%nat.
Proof.
  destruct (push [x01] (BLI_StackImpl_new 1 4)) as [s1|] eqn:Hp;
    [|vm_compute in Hp; discriminate].
  pose proof Hp as Hp2. vm_compute in Hp2. injection Hp2 as Hs1.
  assert (heap s1 !! 0%nat
          = Some {| next := None; data := [x01; x00; x00; x00] |}) as Hc
    by (rewrite <- Hs1; reflexivity).
  exists s1, {| next := None; data := [x01; x00; x00; x00] |}.
  split; [reflexivity|]. split; [exact Hc|].
  rewrite (chunks_keep_their_size s1 0%nat _
             (reach_push _ _ _ (reach_new 1 4) Hp) Hc).
  rewrite <- Hs1. vm_compute. reflexivity.
Defined.



(** ** The destructor *)

(** X7. On a stack whose two lists are well formed the destructor returns
    and deletes the chunks of the active list and then those of the free
    list, each exactly once, and no other chunk. *)
Theorem destructor_deletes_both_lists (s : BLI_StackImpl) (lc lf : list nat) :
  lists_ok s lc lf →
  BLI_StackImpl_delete s = Some (lc ++ lf) ∧
  BLI_stack_free s = Some (lc ++ lf) ∧
  NoDup (lc ++ lf).
Proof.
  intros Hok. pose proof (lists_ok_length s lc lf Hok) as Hlen.
  destruct Hok as (Hc & Hf & Hnd).
  assert (BLI_StackImpl_delete s = Some (lc ++ lf)) as Hdel.
  { unfold BLI_StackImpl_delete.
    rewrite (clear_chunks_list (heap s) (chunk_curr s) lc []); simpl.
    - apply clear_chunks_list; [done|done|lia].
    - done.
    - by apply NoDup_app in Hnd as (? & _).
    - lia. }
  by split_and!.
Qed.

Lemma destructor_deletes_both_lists_witness :
  BLI_StackImpl_delete two_lists_state = Some [0; 1; 2; 3]%nat.
Proof.
  destruct (destructor_deletes_both_lists two_lists_state [0; 1]%nat [2; 3]%nat)
    as (Hd & _).
  - unfold lists_ok. simpl. split_and!; try done. compute_done.
  - exact Hd.
Defined.




(** ** What the operations leave alone *)

Lemma store_next_frame p n (h h' : store) :
  store_next p n h = Some h' →
  length h' = length h ∧ ∀ a, data <$> h' !! a = data <$> h !! a.
Proof.
  unfold store_next. intros Hs.
  destruct (h !! p) as [c|] eqn:Hp; simplify_eq/=.
  split; [by rewrite length_insert|]. intros a. by apply lookup_insert_data.
Qed.

Lemma discard_frame s s' :
  discard s = Some s' →
  length (heap s') = length (heap s) ∧
  ∀ a, data <$> heap s' !! a = data <$> heap s !! a.
Proof.
  unfold discard. simpl. intros H. case_decide.
  - destruct (chunk_curr s) as [old|]; simpl in H; [|done].
    destruct (heap s !! old) as [c|]; simpl in H; [|done].
    destruct (store_next _ _ _) as [h|] eqn:Hs; simplify_eq/=.
    by apply store_next_frame in Hs.
  - by simplify_eq/=.
Qed.

Lemma clear_frame s s' :
  clear s = Some s' →
  length (heap s') = length (heap s) ∧
  ∀ a, data <$> heap s' !! a = data <$> heap s !! a.
Proof.
  unfold clear. simpl. intros H.
  destruct (chunk_free s) as [f|]; simpl in H.
  - destruct (chunk_curr s) as [cu|]; simpl in H.
    + destruct (last_chunk _ _ _); simpl in H; [|done].
      destruct (store_next _ _ _) as [h|] eqn:Hs; simplify_eq/=.
      by apply store_next_frame in Hs.
    + by simplify_eq/=.
  - by simplify_eq/=.
Qed.

(** X9. Removing elements never allocates, releases or wipes anything:
    whenever [discard], [pop] or [clear] returns, the store holds the same
    number of chunks and every chunk holds the same bytes as before (the
    removed elements' bytes included). *)
Theorem removal_keeps_chunks_and_bytes (s s' : BLI_StackImpl) :
  (discard s = Some s' ∨ (∃ dst, pop s = Some (dst, s')) ∨ clear s = Some s') →
  length (heap s') = length (heap s) ∧
  ∀ a, data <$> heap s' !! a = data <$> heap s !! a.
Proof.
  intros [Hd|[[dst Hp]|Hc]].
  - by apply discard_frame.
  - unfold pop in Hp.
    destruct (get_last_elem s); simpl in Hp; [|done].
    destruct (memcpy_from_slot _ _ _); simpl in Hp; [|done].
    destruct (discard s) as [s1|] eqn:Hd; simplify_eq/=.
    by apply discard_frame.
  - by apply clear_frame.
Qed.

Lemma removal_keeps_chunks_and_bytes_witness :
  ∃ s', discard two_lists_state = Some s' ∧
        data <$> heap s' !! 0%nat = Some [x05; x00].
Proof.
  destruct (discard two_lists_state) as [s'|] eqn:Hd;
    [|vm_compute in Hd; discriminate].
  destruct (removal_keeps_chunks_and_bytes two_lists_state s' (or_introl Hd))
    as [_ Hdata].
  exists s'. split; [reflexivity|]. rewrite Hdata. reflexivity.
Defined.

(** ** Misuse and degenerate sizes *)

(** X10. Removing from a stack that has no current chunk is not detected.
    [peek] and [pop] dereference the null [chunk_curr].  [discard] does so
    only when the cursor is 0; otherwise it returns, and on a stack that
    counted no element the count wraps to [SIZE_MAX], so [is_empty] answers
    false from then on. *)
Theorem removal_without_current_chunk (s : BLI_StackImpl) :
  chunk_curr s = None →
  is_size_t (chunk_index s) →
  peek s = None ∧
  pop s = None ∧
  (chunk_index s = 0 → discard s = None) ∧
  (chunk_index s ≠ 0 →
     ∃ s', discard s = Some s' ∧
           chunk_index s' = chunk_index s - 1 ∧
           chunk_curr s' = None ∧
           (elem_num s = 0 → count s' = SIZE_MAX ∧ is_empty s' = false)).
Proof.
  intros Hcu Hidx. split_and!.
  - unfold peek, get_last_elem. by rewrite Hcu.
  - unfold pop, get_last_elem. by rewrite Hcu.
  - intros Hz. unfold discard. simpl. rewrite Hz.
    rewrite decide_True by done. by rewrite Hcu.
  - intros Hnz. rewrite discard_keep by size_lia.
    eexists. split; [done|]. simpl. split_and!.
    + size_lia.
    + done.
    + intros Hn. unfold count, is_empty. simpl. rewrite Hn. by vm_compute.
Qed.

Lemma removal_without_current_chunk_witness :
  ∃ s', discard (BLI_StackImpl_new 4 4) = Some s' ∧ count s' = SIZE_MAX.
Proof.
  destruct (removal_without_current_chunk (BLI_StackImpl_new 4 4))
    as (_ & _ & _ & Hd).
  - reflexivity.
  - by vm_compute.
  - destruct Hd as (s' & Hd & _ & _ & Hc); [by vm_compute|].
    exists s'. split; [exact Hd|]. by apply Hc.
Defined.

(** X11. A stack whose chunk size [elem_size * chunk_elem_max], computed in
    [size_t], is smaller than one element (a chunk capacity of 0, or a
    product that overflows) cannot store anything.  On the new stack [push]
    never returns: either the allocation of the chunk fails, or the copy
    runs out of the chunk's bounds.  Whenever [push_r] returns, its slot is
    the start of a fresh chunk that is too small for an element. *)
Theorem first_push_needs_room (es cap : Z) (src : list byte) :
  is_size_t es → is_size_t cap →
  size_wrap (es * cap) < es →
  push src (BLI_StackImpl_new es cap) = None ∧
  ∀ dst s1, push_r (BLI_StackImpl_new es cap) = Some (dst, s1) →
    dst = (0%nat, 0) ∧
    heap s1 = [zeroed_chunk (size_wrap (es * cap))] ∧
    elem_size s1 = es ∧
    ¬ top_slot_ok s1.
Proof.
  intros Hes Hcap Hsmall.
  assert (size_wrap (chunk_index (BLI_StackImpl_new es cap) + 1)
          = chunk_elem_max (BLI_StackImpl_new es cap)) as Htrig
    by (simpl; size_lia).
  assert (size_wrap (es * 0) = 0) as Hz by (rewrite Z.mul_0_r; done).
  assert (Z.of_nat (length (data (zeroed_chunk (size_wrap (es * cap)))))
          = size_wrap (es * cap)) as Hlen.
  { simpl. rewrite length_replicate. apply Z2Nat.id. size_lia. }
  assert (∀ dst s1, push_r (BLI_StackImpl_new es cap) = Some (dst, s1) →
            dst = (0%nat, 0) ∧
            heap s1 = [zeroed_chunk (size_wrap (es * cap))] ∧
            elem_size s1 = es ∧ chunk_curr s1 = Some 0%nat ∧
            chunk_index s1 = 0) as Hr.
  { intros dst s1 Hp.
    destruct (push_r_new_chunk _ dst s1 Htrig Hp)
      as (s0 & p & c & Hal & Hcu & _ & _ & -> & ->).
    apply allocate_new_chunk_fresh_inv in Hal as [_ ->]; [|done].
    simpl in *. simplify_eq. by rewrite Hz. }
  split.
  - unfold push.
    destruct (push_r (BLI_StackImpl_new es cap)) as [[dst s1]|] eqn:Hp; [|done].
    destruct (Hr dst s1 eq_refl) as (-> & Hh & He & _). simpl.
    unfold memcpy_to_slot. simpl. rewrite Hh. simpl.
    rewrite decide_False; [done|]. rewrite He. simpl in Hlen. lia.
  - intros dst s1 Hp. destruct (Hr dst s1 Hp) as (-> & Hh & He & Hcu & Hi).
    do 3 (split; [done|]).
    unfold top_slot_ok. rewrite Hcu, Hh. simpl. rewrite He, Hi, Hz.
    simpl in Hlen. lia.
Qed.

Lemma first_push_needs_room_witness :
  push [x01; x02; x03; x04] (BLI_StackImpl_new 4 0) = None.
Proof.
  destruct (first_push_needs_room 4 0 [x01; x02; x03; x04]) as [Hp _].
  - by vm_compute.
  - by vm_compute.
  - by vm_compute.
  - exact Hp.
Defined.

(** ** What a push writes *)

Lemma allocate_new_chunk_keeps s s' a c :
  allocate_new_chunk s = Some s' → heap s !! a = Some c →
  ∃ c', heap s' !! a = Some c' ∧ data c' = data c.
Proof.
  intros Hal Ha. destruct (chunk_free s) as [f|] eqn:Hf.
  - unfold allocate_new_chunk in Hal. rewrite Hf in Hal. simpl in Hal.
    destruct (heap s !! f) as [cf|] eqn:Hc; simpl in Hal; [|done].
    rewrite (store_next_Some _ _ _ _ Hc) in Hal. simplify_eq/=.
    destruct (decide (f = a)) as [->|Hne].
    + rewrite list_lookup_insert_eq by (by eapply lookup_lt_Some).
      simplify_eq. by eexists.
    + rewrite list_lookup_insert_ne by done. by exists c.
  - apply (allocate_new_chunk_fresh_inv s s' Hf) in Hal as [_ ->]. simpl in *.
    exists c. split; [|done]. apply lookup_app_l_Some. done.
Qed.

Lemma push_r_keeps s dst s' a c :
  push_r s = Some (dst, s') → heap s !! a = Some c →
  ∃ c', heap s' !! a = Some c' ∧ data c' = data c.
Proof.
  unfold push_r. intros Hp Ha. case_decide.
  - destruct (allocate_new_chunk _) as [s1|] eqn:Hal; simpl in Hp; [|done].
    destruct (get_last_elem _); simplify_eq/=.
    by eapply (allocate_new_chunk_keeps _ s1 a c Hal).
  - simpl in Hp. destruct (get_last_elem _); simplify_eq/=. by exists c.
Qed.

Lemma memcpy_to_slot_frame p off src n (h h' : store) a c :
  memcpy_to_slot (p, off) src n h = Some h' → h !! a = Some c →
  ∃ c', h' !! a = Some c' ∧ length (data c') = length (data c) ∧
        ∀ i, (a ≠ p ∨ i < Z.to_nat off ∨ Z.to_nat off + Z.to_nat n ≤ i)%nat →
             data c' !! i = data c !! i.
Proof.
  unfold memcpy_to_slot. simpl. intros Hm Ha.
  destruct (h !! p) as [cp|] eqn:Hp; simpl in Hm; [|done].
  case_decide as Hb; simplify_eq.
  destruct (decide (p = a)) as [->|Hne].
  - rewrite list_lookup_insert_eq by (by eapply lookup_lt_Some).
    simplify_eq. eexists. split; [done|]. simpl.
    assert (length (take (Z.to_nat off) (data cp)) = Z.to_nat off) as Hl1
      by (rewrite length_take; lia).
    assert (length (take (Z.to_nat n) src) = Z.to_nat n) as Hl2
      by (rewrite length_take; lia).
    split.
    + rewrite !length_app, Hl1, Hl2, length_drop. lia.
    + intros i [Hne|[Hlt|Hge]]; [done| |].
      * rewrite lookup_app_l by lia. by apply lookup_take_lt.
      * rewrite lookup_app_r by lia. rewrite lookup_app_r by lia.
        rewrite lookup_drop. f_equal. lia.
  - rewrite list_lookup_insert_ne by done. exists c. by split_and!.
Qed.

(** X12. A push writes the [elem_size] bytes of the slot it makes the top
    and nothing else: whenever it returns, every chunk that existed before
    is still there with its size, and every byte outside the new top slot
    has the value it had. *)
Theorem push_writes_only_its_slot (s s1 : BLI_StackImpl) (src : list byte) :
  push src s = Some s1 →
  ∃ p off,
    peek s1 = Some (p, off) ∧
    ∀ a c, heap s !! a = Some c →
      ∃ c1, heap s1 !! a = Some c1 ∧
            length (data c1) = length (data c) ∧
            ∀ i, (a ≠ p ∨ i < Z.to_nat off
                  ∨ Z.to_nat off + Z.to_nat (elem_size s) ≤ i)%nat →
                 data c1 !! i = data c !! i.
Proof.
  intros Hp. unfold push in Hp.
  destruct (push_r s) as [[[p off] s0]|] eqn:Hr; simpl in Hp; [|done].
  destruct (memcpy_to_slot _ _ _ _) as [h|] eqn:Hm; simplify_eq/=.
  pose proof (push_r_fields _ _ _ Hr) as (_ & He & _).
  exists p, off. split.
  - unfold push_r in Hr.
    destruct (if decide _ then _ else _) as [s2|]; simpl in Hr; [|done].
    destruct (get_last_elem _) as [d|] eqn:Hg; simplify_eq/=.
    unfold peek, get_last_elem in *. simpl in *.
    destruct (chunk_curr s2) as [q|]; simpl in *; [|done].
    destruct (heap s2 !! q) as [cq|] eqn:Hq; simplify_eq/=.
    destruct (memcpy_to_slot_frame _ _ _ _ _ _ _ _ Hm Hq) as (c' & -> & _).
    done.
  - intros a c Ha.
    destruct (push_r_keeps _ _ _ a c Hr Ha) as (c0 & Hc0 & Hd0).
    destruct (memcpy_to_slot_frame _ _ _ _ _ _ _ _ Hm Hc0) as (c1 & Hc1 & Hl & Hfr).
    exists c1. rewrite <- Hd0, <- He. by split_and!.
Qed.

Lemma push_writes_only_its_slot_witness :
  ∃ s1 c1, push [x09] full_chunk_state = Some s1 ∧
           heap s1 !! 0%nat = Some c1 ∧
           data c1 !! 1%nat = Some x02.
Proof.
  destruct (push [x09] full_chunk_state) as [s1|] eqn:Hp;
    [|vm_compute in Hp; discriminate].
  destruct (push_writes_only_its_slot full_chunk_state s1 [x09] Hp)
    as (p & off & Hpk & Hfr).
  destruct (Hfr 0%nat {| next := None; data := [x01; x02] |} eq_refl)
    as (c1 & Hc1 & _ & Hb).
  exists s1, c1. split; [reflexivity|]. split; [exact Hc1|].
  rewrite (Hb 1%nat); [reflexivity|].
  left. vm_compute in Hp. injection Hp as <-. vm_compute in Hpk.
  injection Hpk as <- _. lia.
Defined.

(** ** [discard] when the chunk it unlinks exists *)

(** X13. What [discard] does when the chunk it has to unlink exists.  On a
    state that counts at least one element, [discard] decrements
    [chunk_index]; when the cursor was 0, so that the decrement wraps below
    zero, and [chunk_curr] points to a chunk, that chunk is taken off the
    active list and put in front of the free list, [chunk_curr] moves to the
    chunk that followed it (null if there was none) and [chunk_index] becomes
    [chunk_elem_max - 1]; in both cases [elem_num] goes down by exactly
    one. *)
Theorem discard_algorithm (s : BLI_StackImpl) :
  is_size_t (chunk_index s) →
  0 < elem_num s ≤ SIZE_MAX →
  (chunk_index s = 0 → is_Some (head_chunk s)) →
  ∃ s', discard s = Some s' ∧
    elem_num s' = elem_num s - 1 ∧
    chunk_elem_max s' = chunk_elem_max s ∧
    elem_size s' = elem_size s ∧
    (chunk_index s ≠ 0 →
       chunk_index s' = chunk_index s - 1 ∧
       chunk_curr s' = chunk_curr s ∧
       chunk_free s' = chunk_free s ∧
       heap s' = heap s) ∧
    (chunk_index s = 0 →
       ∃ old c,
         chunk_curr s = Some old ∧ heap s !! old = Some c ∧
         chunk_curr s' = next c ∧
         chunk_free s' = Some old ∧
         heap s' = <[old := {| next := chunk_free s; data := data c |}]> (heap s) ∧
         chunk_index s' = size_wrap (chunk_elem_max s - 1) ∧
         (1 ≤ chunk_elem_max s ≤ SIZE_MAX →
            chunk_index s' = chunk_elem_max s - 1) ∧
         ∀ lc lf, lists_ok s lc lf →
                  lc = old :: tail lc ∧ lists_ok s' (tail lc) (old :: lf)).
Proof.
  intros Hidx Hnum Hhead.
  assert (size_wrap (elem_num s - 1) = elem_num s - 1) as Hn by size_lia.
  destruct (decide (chunk_index s = 0)) as [Hz|Hnz].
  - destruct (Hhead Hz) as [c Hc]. unfold head_chunk in Hc.
    destruct (chunk_curr s) as [old|] eqn:Hcu; [|done]. simpl in Hc.
    rewrite (discard_underflow s old c); [|rewrite Hz; done|done|done].
    eexists. split; [done|]. simpl. rewrite Hn.
    split_and!; try done. intros _. exists old, c.
    split_and!; try done; [intros Hcap; size_lia|].
    intros lc lf Hok.
    destruct (lists_ok_discard_underflow s old c lc lf Hok Hcu Hc) as [Hlc Hok'].
    split; [done|]. apply Hok'.
  - rewrite discard_keep by size_lia.
    eexists. split; [done|]. simpl. rewrite Hn.
    split_and!; try done. intros _. split_and!; try done. size_lia.
Qed.

Lemma discard_algorithm_witness :
  ∃ s', discard two_lists_state = Some s' ∧
        elem_num s' = 2 ∧
        chunk_curr s' = Some 1%nat ∧
        chunk_free s' = Some 0%nat ∧
        chunk_index s' = 1.
Proof.
  destruct (discard_algorithm two_lists_state)
    as (s' & Hd & Hn & _ & _ & _ & Hu).
  - by vm_compute.
  - by vm_compute.
  - intros _. by eexists.
  - destruct (Hu eq_refl) as (old & c & Hold & Hc & Hcu & Hfr & _ & Hi & _ & _).
    exists s'. simplify_eq/=. by rewrite Hn, Hcu, Hfr, Hi.
Defined.
